(** * Frontier structures and search driver of the AI search visualizer

  A shallow embedding of [PriorityQueue.py] (classes [PriorityQueue],
  [Queue], [Stack]) and of the search-execution part of [main.py]
  ([GraphVisualizer.start_search], [capture_search_state]), together with
  the properties the specification states about them.

  Python objects that are shared and mutated in place (the three-slot
  entry lists of the priority queue, which both [heap] and [entry_finder]
  point to) live in an explicit store and are referred to by location.

  Beyond that, the file covers the rest of the three frontier classes
  ([peek], [clear], [__contains__], [get_all_nodes], draining by repeated
  [pop]), the playback of a recorded search in [main.py]
  ([restore_search_state], [animate_next_step], [animation_complete],
  [step_forward], [step_backward], [toggle_pause], [stop_search],
  [clear_path]) and its undo history ([save_state], [undo], [redo]). *)

From stdpp Require Import gmap strings list fin_maps.
From Stdlib Require Import ZArith ZifyNat ZifyBool.

Local Ltac Zify.zify_post_hook ::= Z.div_mod_to_equations.

(** ** Exceptions and results *)

Inductive exn : Set :=
| KeyError
| IndexError
| ValueError
| TypeError
| AttributeError
| ZeroDivisionError.

Inductive result (T : Type) : Type :=
| Ok (v : T)
| Raise (e : exn).
Arguments Ok {T} v.
Arguments Raise {T} e.

(** ** Python's [heapq] on a list, over an arbitrary [<] *)

Module heapq.
Section heapq.
Context {A : Type} (lt : A → A → bool).

(** [(pos - 1) >> 1] *)
Definition parent (pos : nat) : nat := Nat.shiftr (pos - 1) 1.

(** The [while pos > startpos] loop of [_siftdown].  Every iteration
    replaces [pos] by its parent, which is smaller, so [pos] iterations
    are enough: when the counter reaches [0] with [pos ≤ fuel], [pos] is
    [0] and the loop condition is false ([siftdown_loop_fuel]).  The
    positions [heappush] and [heappop] work on are inside the list, where
    every [heap[i]] below finds its element. *)
Fixpoint _siftdown_loop (fuel : nat) (heap : list A) (startpos pos : nat)
    (newitem : A) : list A :=
  match fuel with
  | S fuel' =>
      if startpos <? pos then
        let parentpos := parent pos in
        match heap !! parentpos with
        | Some parent_ =>
            if lt newitem parent_ then
              _siftdown_loop fuel' (<[pos := parent_]> heap) startpos
                             parentpos newitem
            else <[pos := newitem]> heap
        | None => <[pos := newitem]> heap
        end
      else <[pos := newitem]> heap
  | O => <[pos := newitem]> heap
  end.

Definition _siftdown (heap : list A) (startpos pos : nat) : list A :=
  match heap !! pos with
  | Some newitem => _siftdown_loop pos heap startpos pos newitem
  | None => heap
  end.

(** The [while childpos < endpos] loop of [_siftup]: returns the list and
    the position of the leaf where the hole ends up.  [pos] grows at every
    iteration, so [endpos - pos] iterations are enough
    ([siftup_loop_fuel]). *)
Fixpoint _siftup_loop (fuel : nat) (heap : list A) (endpos pos : nat)
    : list A * nat :=
  match fuel with
  | S fuel' =>
      let childpos := 2 * pos + 1 in
      if childpos <? endpos then
        let rightpos := childpos + 1 in
        let childpos :=
          if rightpos <? endpos then
            match heap !! childpos, heap !! rightpos with
            | Some l, Some r => if lt l r then childpos else rightpos
            | _, _ => childpos
            end
          else childpos in
        match heap !! childpos with
        | Some c => _siftup_loop fuel' (<[pos := c]> heap) endpos childpos
        | None => (heap, pos)
        end
      else (heap, pos)
  | O => (heap, pos)
  end.

Definition _siftup (heap : list A) (pos : nat) : list A :=
  let endpos := length heap in
  let startpos := pos in
  match heap !! pos with
  | Some newitem =>
      let '(heap, pos) := _siftup_loop (endpos - pos) heap endpos pos in
      _siftdown (<[pos := newitem]> heap) startpos pos
  | None => heap
  end.

(** [heap.append(item); _siftdown(heap, 0, len(heap)-1)] *)
Definition heappush (heap : list A) (item : A) : list A :=
  let heap := heap ++ [item] in
  _siftdown heap 0 (length heap - 1).

(** [None] stands for the [IndexError] of [heap.pop()] on an empty list. *)
Definition heappop (heap : list A) : option (A * list A) :=
  match last heap with
  | None => None
  | Some lastelt =>
      let heap := removelast heap in
      match heap with
      | returnitem :: _ => Some (returnitem, _siftup (<[0 := lastelt]> heap) 0)
      | [] => Some (lastelt, [])
      end
  end.

(** The heap invariant of the module's documentation, in terms of [<]
    only: no element is smaller than its parent. *)
Definition edge_ok (v : list A) (i : nat) : Prop :=
  ∀ x y, v !! i = Some x → v !! parent i = Some y → lt x y = false.

Definition is_heap (v : list A) : Prop :=
  ∀ i, 0 < i → edge_ok v i.

(** While an item is being sifted, the list with the item written into
    the hole at [pos] is a heap except around the hole: every edge that
    does not touch [pos] is in order, and the children of [pos] are in
    order with the parent of [pos]. *)
Definition hole_inv (v : list A) (pos : nat) : Prop :=
  (∀ i, 0 < i → i ≠ pos → parent i ≠ pos → edge_ok v i) ∧
  (0 < pos → ∀ c x y, 0 < c → parent c = pos →
     v !! c = Some x → v !! parent pos = Some y → lt x y = false).

(** The item in the hole is in order with the children of the hole. *)
Definition below_ok (v : list A) (pos : nat) : Prop :=
  ∀ c, 0 < c → parent c = pos → edge_ok v c.

End heapq.
End heapq.

(** ** PriorityQueue.py: class [PriorityQueue] *)

Module PriorityQueue.

(** Modelled from the spec: a vertex ([Node.py] is not part of the
    sources) is known to the queue through its "unique stable id" only;
    [main.py] numbers the nodes [0, 1, 2, ...] ([Node(self.node_counter,
    x, y, 0)]). *)
Abbreviation Node := nat (only parsing).

(** Third slot of an entry: the node, or the placeholder [self.REMOVED]. *)
Inductive slot : Type :=
| Live (node : Node)
| REMOVED.

Global Instance slot_eq_dec : EqDecision slot.
Proof. solve_decision. Defined.

(** [entry = [priority, count, node]]: a three-element Python list.  Only
    its last slot is ever assigned to.  Priorities are numbers that are
    only ever compared; they are integers here. *)
Record entry : Type := Entry {
  priority : Z;
  count : nat;
  node : slot
}.

Global Instance entry_inhabited : Inhabited entry :=
  populate (Entry 0 0 REMOVED).

(** Entries are shared between [heap] and [entry_finder]: both hold
    references (locations) into the store. *)
Abbreviation loc := nat (only parsing).

Record t : Type := Build {
  store : list entry;
  heap : list loc;
  counter : nat;
  entry_finder : gmap Node loc
}.

(** [a < b] on entry lists is lexicographic.  The third slot would only be
    looked at for two entries with the same priority and the same count. *)
Definition entry_lt (st : list entry) (a b : loc) : bool :=
  let ea := st !!! a in
  let eb := st !!! b in
  (priority ea <? priority eb)%Z
  || ((priority ea =? priority eb)%Z && (count ea <? count eb)).

Definition __init__ : t :=
  {| store := []; heap := []; counter := 0; entry_finder := ∅ |}.

Definition __contains__ (n : Node) (q : t) : bool :=
  bool_decide (is_Some (entry_finder q !! n)).

Definition __len__ (q : t) : nat := size (entry_finder q).

Definition is_empty (q : t) : bool := __len__ q =? 0.

(** [entry[-1] = self.REMOVED] *)
Definition tombstone (e : entry) : entry :=
  {| priority := priority e; count := count e; node := REMOVED |}.

Definition remove (n : Node) (q : t) : result unit * t :=
  match entry_finder q !! n with
  | Some e =>
      (Ok tt,
       {| store := <[e := tombstone (store q !!! e)]> (store q);
          heap := heap q;
          counter := counter q;
          entry_finder := delete n (entry_finder q) |})
  | None => (Raise KeyError, q)
  end.

Definition push (n : Node) (p : Z) (q : t) : result unit * t :=
  let '(r, q) := if __contains__ n q then remove n q else (Ok tt, q) in
  match r with
  | Raise e => (Raise e, q)
  | Ok _ =>
      let count := counter q in
      let e := length (store q) in
      let st := store q ++ [{| priority := p; count := count; node := Live n |}] in
      (Ok tt,
       {| store := st;
          heap := heapq.heappush (entry_lt st) (heap q) e;
          counter := count + 1;
          entry_finder := <[n := e]> (entry_finder q) |})
  end.

Definition set_heap (h : list loc) (q : t) : t :=
  {| store := store q; heap := h; counter := counter q;
     entry_finder := entry_finder q |}.

(** The [while self.heap] loop of [pop]; [None] when the iteration bound
    is used up with the heap still non-empty. *)
Fixpoint pop_loop (fuel : nat) (q : t) : option (result Node * t) :=
  match heap q with
  | [] => Some (Raise KeyError, q)
  | _ :: _ =>
      match fuel with
      | O => None
      | S fuel' =>
          match heapq.heappop (entry_lt (store q)) (heap q) with
          | None => Some (Raise IndexError, q)
          | Some (e, h) =>
              let q := set_heap h q in
              match node (store q !!! e) with
              | Live n =>
                  match entry_finder q !! n with
                  | Some _ =>
                      Some (Ok n,
                            {| store := store q; heap := heap q;
                               counter := counter q;
                               entry_finder := delete n (entry_finder q) |})
                  | None => Some (Raise KeyError, q)
                  end
              | REMOVED => pop_loop fuel' q
              end
          end
      end
  end.

Definition pop (q : t) : option (result Node * t) :=
  pop_loop (length (heap q)) q.

(** The [while self.heap] loop of [peek]; the Python [None] it returns on
    an empty queue is [Ok None]. *)
Fixpoint peek_loop (fuel : nat) (q : t) : option (result (option Node) * t) :=
  match heap q with
  | [] => Some (Ok None, q)
  | e :: _ =>
      match node (store q !!! e) with
      | Live n => Some (Ok (Some n), q)
      | REMOVED =>
          match fuel with
          | O => None
          | S fuel' =>
              match heapq.heappop (entry_lt (store q)) (heap q) with
              | None => Some (Raise IndexError, q)
              | Some (_, h) => peek_loop fuel' (set_heap h q)
              end
          end
      end
  end.

Definition peek (q : t) : option (result (option Node) * t) :=
  peek_loop (length (heap q)) q.

Definition clear (q : t) : t :=
  {| store := store q; heap := []; counter := 0; entry_finder := ∅ |}.

(** An entry of the heap that has not been tombstoned. *)
Definition is_live (st : list entry) (e : loc) : bool :=
  match node (st !!! e) with
  | Live _ => true
  | REMOVED => false
  end.

Definition live_entries (q : t) : list loc :=
  filter (λ e, is_live (store q) e = true) (heap q).

(** Live entries of one node. *)
Definition entries_of (n : Node) (q : t) : list loc :=
  filter (λ e, node (store q !!! e) = Live n) (heap q).

(** [(priority, count)] of [a] comes strictly before that of [b]. *)
Definition before (st : list entry) (a b : loc) : Prop :=
  (priority (st !!! a) < priority (st !!! b))%Z
  ∨ (priority (st !!! a) = priority (st !!! b)
     ∧ count (st !!! a) < count (st !!! b)).

(** The second half of [push]: a fresh entry for a node that has none. *)
Definition push_fresh (n : Node) (p : Z) (q : t) : t :=
  let st := store q ++ [{| priority := p; count := counter q; node := Live n |}] in
  {| store := st;
     heap := heapq.heappush (entry_lt st) (heap q) (length (store q));
     counter := counter q + 1;
     entry_finder := <[n := length (store q)]> (entry_finder q) |}.

(** What one call of [pop] does to a well-formed queue. *)
Definition pop_post (q : t) (r : result Node) (q' : t) : Prop :=
  store q' = store q ∧ counter q' = counter q
  ∧ (∀ a, a ∈ heap q' → a ∈ heap q)
  ∧ match r with
    | Ok n => ∃ e,
        e ∈ heap q ∧ (e ∉ heap q')
        ∧ node (store q !!! e) = Live n
        ∧ entry_finder q !! n = Some e
        ∧ entry_finder q' = delete n (entry_finder q)
        ∧ (∀ a, a ∈ heap q → a ≠ e → (a ∉ heap q') →
             is_live (store q) a = false)
        ∧ (∀ a, a ∈ heap q → is_live (store q) a = true → a ≠ e →
             before (store q) e a)
    | Raise x =>
        x = KeyError ∧ heap q' = [] ∧ entry_finder q' = entry_finder q
        ∧ ∀ a, a ∈ heap q → is_live (store q) a = false
    end.

(** What one call of [peek] does to a well-formed queue: tombstones at
    the top of the heap are popped for good, nothing else changes. *)
Definition peek_post (q : t) (r : option Node) (q' : t) : Prop :=
  store q' = store q ∧ counter q' = counter q
  ∧ entry_finder q' = entry_finder q
  ∧ (∀ a, a ∈ heap q' → a ∈ heap q)
  ∧ (∀ a, a ∈ heap q → (a ∉ heap q') → is_live (store q) a = false)
  ∧ match r with
    | Some n => ∃ e,
        heap q' !! 0 = Some e
        ∧ node (store q !!! e) = Live n
        ∧ (∀ a, a ∈ heap q → is_live (store q) a = true → a ≠ e →
             before (store q) e a)
    | None => heap q' = []
    end.

(** States the class reaches from [__init__] through its methods,
    including the states left behind by a call that raised. *)
Inductive reachable : t → Prop :=
| reach_init : reachable __init__
| reach_push n p q : reachable q → reachable (push n p q).2
| reach_remove n q : reachable q → reachable (remove n q).2
| reach_pop q r q' : reachable q → pop q = Some (r, q') → reachable q'
| reach_peek q r q' : reachable q → peek q = Some (r, q') → reachable q'
| reach_clear q : reachable q → reachable (clear q).

(** What the heap and the index promise each other. *)
Record pq_inv (q : t) : Prop := {
  inv_heap : heapq.is_heap (entry_lt (store q)) (heap q);
  inv_nodup : NoDup (heap q);
  inv_alloc : ∀ e, e ∈ heap q → e < length (store q);
  inv_count_inj : ∀ a b, a ∈ heap q → b ∈ heap q →
    count (store q !!! a) = count (store q !!! b) → a = b;
  inv_count_lt : ∀ e, e ∈ heap q → count (store q !!! e) < counter q;
  inv_finder_live : ∀ n e, entry_finder q !! n = Some e →
    e ∈ heap q ∧ node (store q !!! e) = Live n;
  inv_live_finder : ∀ n e, e ∈ heap q → node (store q !!! e) = Live n →
    entry_finder q !! n = Some e
}.

(** [pop] again and again until it raises: the nodes it returned, in
    order, and the queue left behind.  [None] when [fuel] calls were not
    enough to reach the [KeyError]. *)
Fixpoint pop_all (fuel : nat) (q : t) : option (list Node * t) :=
  match fuel with
  | O => None
  | S fuel' =>
      match pop q with
      | None => None
      | Some (Raise _, q) => Some ([], q)
      | Some (Ok n, q) =>
          match pop_all fuel' q with
          | Some (ns, q) => Some (n :: ns, q)
          | None => None
          end
      end
  end.

End PriorityQueue.

(** ** PriorityQueue.py: class [Queue] *)

Module Queue.
Section Queue.
Context {A : Type}.

Record t : Type := Build { items : list A }.

Definition __init__ : t := {| items := [] |}.

(** [self.items.append(item)] *)
Definition push (item : A) (q : t) : t := {| items := items q ++ [item] |}.

Definition is_empty (q : t) : bool := length (items q) =? 0.

(** [self.items.pop(0)] raises [IndexError] on an empty list. *)
Definition pop (q : t) : result A * t :=
  if is_empty q then (Raise IndexError, q)
  else match items q !! 0 with
       | Some x => (Ok x, {| items := delete 0 (items q) |})
       | None => (Raise IndexError, q)
       end.

Definition peek (q : t) : result (option A) :=
  if is_empty q then Ok None
  else match items q !! 0 with
       | Some x => Ok (Some x)
       | None => Raise IndexError
       end.

Definition __len__ (q : t) : nat := length (items q).

Definition clear (q : t) : t := {| items := [] |}.

(** A sequence of pushes. *)
Definition push_all (xs : list A) (q : t) : t :=
  fold_left (λ acc x, push x acc) xs q.

(** Any sequence of pushes and pops; the items the pops returned, in
    order, and the queue at the end.  A pop that raises returns nothing. *)
Inductive op : Type :=
| Push (x : A)
| Pop.

Fixpoint run (ops : list op) (q : t) : list A * t :=
  match ops with
  | [] => ([], q)
  | Push x :: ops => run ops (push x q)
  | Pop :: ops =>
      match pop q with
      | (Ok y, q) => let '(out, q) := run ops q in (y :: out, q)
      | (Raise _, q) => run ops q
      end
  end.

Fixpoint pushed (ops : list op) : list A :=
  match ops with
  | [] => []
  | Push x :: ops => x :: pushed ops
  | Pop :: ops => pushed ops
  end.

(** [item in self.items] *)
Definition __contains__ `{EqDecision A} (item : A) (q : t) : bool :=
  bool_decide (item ∈ items q).

(** [self.items.copy()] *)
Definition get_all_nodes (q : t) : list A := items q.

(** [pop] again and again until it raises [IndexError]; [None] when [fuel]
    calls were not enough to get there. *)
Fixpoint pop_all (fuel : nat) (q : t) : option (list A * t) :=
  match fuel with
  | O => None
  | S fuel' =>
      match pop q with
      | (Raise _, q) => Some ([], q)
      | (Ok x, q) =>
          match pop_all fuel' q with
          | Some (xs, q) => Some (x :: xs, q)
          | None => None
          end
      end
  end.

End Queue.
Arguments t : clear implicits.
Arguments op : clear implicits.
End Queue.

(** ** PriorityQueue.py: class [Stack] *)

Module Stack.
Section Stack.
Context {A : Type}.

Record t : Type := Build { items : list A }.

Definition __init__ : t := {| items := [] |}.

Definition push (item : A) (s : t) : t := {| items := items s ++ [item] |}.

Definition is_empty (s : t) : bool := length (items s) =? 0.

(** [self.items.pop()] removes the last element. *)
Definition pop (s : t) : result A * t :=
  if is_empty s then (Raise IndexError, s)
  else match last (items s) with
       | Some x => (Ok x, {| items := removelast (items s) |})
       | None => (Raise IndexError, s)
       end.

(** [self.items[-1]] *)
Definition peek (s : t) : result (option A) :=
  if is_empty s then Ok None
  else match last (items s) with
       | Some x => Ok (Some x)
       | None => Raise IndexError
       end.

Definition __len__ (s : t) : nat := length (items s).

Definition clear (s : t) : t := {| items := [] |}.

(** A sequence of pushes. *)
Definition push_all (xs : list A) (s : t) : t :=
  fold_left (λ acc x, push x acc) xs s.

(** [item in self.items] *)
Definition __contains__ `{EqDecision A} (item : A) (s : t) : bool :=
  bool_decide (item ∈ items s).

(** [self.items.copy()] *)
Definition get_all_nodes (s : t) : list A := items s.

(** [pop] again and again until it raises [IndexError]; [None] when [fuel]
    calls were not enough to get there. *)
Fixpoint pop_all (fuel : nat) (s : t) : option (list A * t) :=
  match fuel with
  | O => None
  | S fuel' =>
      match pop s with
      | (Raise _, s) => Some ([], s)
      | (Ok x, s) =>
          match pop_all fuel' s with
          | Some (xs, s) => Some (x :: xs, s)
          | None => None
          end
      end
  end.

End Stack.
Arguments t : clear implicits.
End Stack.

(** ** main.py: search execution of class [GraphVisualizer] *)

Module GraphVisualizer.
Section GraphVisualizer.

(** Costs and heuristic values; [main.py] only stores and shows them. *)
Variable number : Type.

(** [current_node_info]: a dict read through the keys ['g'], ['h'], ['f']. *)
Record Info : Type := { g : number; h : number; f : number }.

(** The attributes of a [SearchAgent] object that [main.py] reads; the
    four lists hold vertex ids. *)
Record SearchAgent : Type := {
  fringe_list : list nat;
  visited_list : list nat;
  traversal_array : list nat;
  path_found : list nat;
  current_node_info : Info;
  success : bool;
  path_cost : number;
  nodes_explored : nat
}.

(** [self.nodes], as far as these functions are concerned: node name to
    [node.state].  Positions, edges and heuristic values of the nodes are
    not touched by the functions below; the engine knows them. *)
Abbreviation Nodes := (gmap nat string) (only parsing).

(** What resuming a generator once comes to: it has updated the agent and
    the node states and then yielded, ended ([StopIteration]) or raised. *)
Inductive resumed (Gen : Type) : Type :=
| Yield (gen : Gen) (agent : SearchAgent) (nodes : Nodes)
| StopIteration (agent : SearchAgent) (nodes : Nodes)
| GenRaise (e : exn) (agent : SearchAgent) (nodes : Nodes).

(** Modelled from the spec: the search engine ([SearchAgent.py]) is not
    part of the sources.  "A strategy is a restartable, lazily-produced
    sequence of steps"; "[step()] performs one unit of work and reports
    whether the run is finished".  In [main.py] a strategy is a Python
    generator made by one of eight methods of the agent; resuming it once
    is one step, which either yields (not finished) or ends (finished). *)
Record SearchAgentClass : Type := {
  Gen : Type;
  new : Nodes → nat → nat → SearchAgent;
  breadth_first_search : Gen;
  depth_first_search : Gen;
  depth_limited_search : Z → Gen;
  iterative_deepening_search : Z → Gen;
  uniform_cost_search : Gen;
  bidirectional_search : Gen;
  greedy_best_first_search : Gen;
  a_star_search : Gen;
  resume : Gen → SearchAgent → Nodes → resumed Gen
}.

Context (SA : SearchAgentClass).

(** Values stored in a captured state. *)
Inductive value : Type :=
| VList (l : list nat)
| VStates (m : Nodes)
| VInfo (i : Info).

(** A captured state is a dict with string keys. *)
Abbreviation Snapshot := (list (string * value)) (only parsing).

(** What the page is told. *)
Inductive effect : Type :=
| Alert (msg : string)
| Disabled (button : string) (b : bool)
| ShowList (element : string) (l : list nat)
| ShowEmpty (element : string) (msg : string)
| ShowInfo (i : Info)
| ShowInfoZero
| ShowReady
| ShowResults (found : option (number * nat)) (explored : nat) (states : nat)
| Render
| SetTimeout (delay : Z)
| ClearTimeout
| GifFrame
| GifFinish.

(** [self.search_generator]: [None], a generator that can be resumed, or
    a generator that has come to its end. *)
Inductive stored_generator : Type :=
| NoGenerator
| Generator (gen : Gen SA)
| Exhausted.

Record t : Type := Build {
  nodes : Nodes;
  source_node : option nat;
  goal_nodes : list nat;
  search_agent : option SearchAgent;
  search_generator : stored_generator;
  animation_states : list Snapshot;
  current_state_index : Z;
  is_animating : bool;
  is_paused : bool;
  animation_speed : Z;
  animation_timer : bool;
  recording_gif : bool;
  effects : list effect
}.

(** The two form fields [start_search] reads: the selected algorithm and
    [int(document['depth-limit'].value)], which is [None] when the text
    is not an integer ([ValueError]). *)
Record Document : Type := {
  algorithm_select : string;
  depth_limit : option Z
}.

Definition emit (es : list effect) (gv : t) : t :=
  {| nodes := nodes gv; source_node := source_node gv;
     goal_nodes := goal_nodes gv; search_agent := search_agent gv;
     search_generator := search_generator gv;
     animation_states := animation_states gv;
     current_state_index := current_state_index gv;
     is_animating := is_animating gv; is_paused := is_paused gv;
     animation_speed := animation_speed gv;
     animation_timer := animation_timer gv;
     recording_gif := recording_gif gv;
     effects := effects gv ++ es |}.

Definition set_nodes (ns : Nodes) (gv : t) : t :=
  {| nodes := ns; source_node := source_node gv;
     goal_nodes := goal_nodes gv; search_agent := search_agent gv;
     search_generator := search_generator gv;
     animation_states := animation_states gv;
     current_state_index := current_state_index gv;
     is_animating := is_animating gv; is_paused := is_paused gv;
     animation_speed := animation_speed gv;
     animation_timer := animation_timer gv;
     recording_gif := recording_gif gv;
     effects := effects gv |}.

Definition set_search (a : option SearchAgent) (sg : stored_generator)
    (gv : t) : t :=
  {| nodes := nodes gv; source_node := source_node gv;
     goal_nodes := goal_nodes gv; search_agent := a;
     search_generator := sg;
     animation_states := animation_states gv;
     current_state_index := current_state_index gv;
     is_animating := is_animating gv; is_paused := is_paused gv;
     animation_speed := animation_speed gv;
     animation_timer := animation_timer gv;
     recording_gif := recording_gif gv;
     effects := effects gv |}.

Definition set_animation (states : list Snapshot) (index : Z)
    (animating paused : bool) (gv : t) : t :=
  {| nodes := nodes gv; source_node := source_node gv;
     goal_nodes := goal_nodes gv; search_agent := search_agent gv;
     search_generator := search_generator gv;
     animation_states := states;
     current_state_index := index;
     is_animating := animating; is_paused := paused;
     animation_speed := animation_speed gv;
     animation_timer := animation_timer gv;
     recording_gif := recording_gif gv;
     effects := effects gv |}.

Definition set_timer (timer : bool) (gv : t) : t :=
  {| nodes := nodes gv; source_node := source_node gv;
     goal_nodes := goal_nodes gv; search_agent := search_agent gv;
     search_generator := search_generator gv;
     animation_states := animation_states gv;
     current_state_index := current_state_index gv;
     is_animating := is_animating gv; is_paused := is_paused gv;
     animation_speed := animation_speed gv;
     animation_timer := timer;
     recording_gif := recording_gif gv;
     effects := effects gv |}.

Definition capture_search_state (gv : t) : result Snapshot :=
  match search_agent gv with
  | None => Raise AttributeError
  | Some agent =>
      Ok [("fringe", VList (fringe_list agent));
          ("visited", VList (visited_list agent));
          ("traversal", VList (traversal_array agent));
          ("path", VList (path_found agent));
          ("node_states", VStates (nodes gv));
          ("current_info", VInfo (current_node_info agent))]
  end%string.

Definition stop_search (gv : t) : t :=
  let gv := set_animation (animation_states gv) (current_state_index gv)
                          false false gv in
  let gv := if animation_timer gv then emit [ClearTimeout] gv else gv in
  emit [Disabled "btn-start" false; Disabled "btn-pause" true;
        Disabled "btn-stop" true; Disabled "btn-step-forward" true;
        Disabled "btn-step-back" true]%string gv.

(** The state [clear_path] leaves a node in. *)
Definition cleared_state (gv : t) (name : nat) (state : string) : string :=
  let state :=
    if bool_decide (state = "visited" ∨ state = "path") then "empty"
    else state in
  let state :=
    if bool_decide (source_node gv = Some name) then "source" else state in
  if bool_decide (name ∈ goal_nodes gv) then "goal" else state.

Definition clear_path (gv : t) : t :=
  let gv := set_nodes (map_imap (λ name state,
                         Some (cleared_state gv name state)) (nodes gv)) gv in
  emit [ShowEmpty "fringe-list" "Empty"; ShowEmpty "visited-list" "Empty";
        ShowEmpty "traversal-list" "Empty";
        ShowEmpty "path-list" "No path found yet";
        ShowInfoZero; ShowReady; Render]%string gv.

Definition update_data_display (element_id : string) (data_list : list nat)
    : list effect :=
  if length data_list =? 0 then
    if bool_decide (element_id = "path-list")
    then [ShowEmpty element_id "No path found yet"]
    else if bool_decide (element_id = "fringe-list"
                         ∨ element_id = "visited-list"
                         ∨ element_id = "traversal-list")
    then [ShowEmpty element_id "Empty"]
    else []
  else [ShowList element_id data_list].

(** [state['key']] for a key holding a list. *)
Definition get_list (state : Snapshot) (key : string) : result (list nat) :=
  match list_find (λ kv, kv.1 = key) state with
  | Some (_, (_, VList l)) => Ok l
  | Some _ => Raise TypeError
  | None => Raise KeyError
  end.

Definition get_info (state : Snapshot) : result Info :=
  match list_find (λ kv, kv.1 = "current_info"%string) state with
  | Some (_, (_, VInfo i)) => Ok i
  | Some _ => Raise TypeError
  | None => Raise KeyError
  end.

Definition get_states (state : Snapshot) : result Nodes :=
  match list_find (λ kv, kv.1 = "node_states"%string) state with
  | Some (_, (_, VStates m)) => Ok m
  | Some _ => Raise TypeError
  | None => Raise KeyError
  end.

Definition restore_search_state (state : Snapshot) (gv : t) : result unit * t :=
  match get_list state "fringe" with Raise e => (Raise e, gv) | Ok fr =>
  let gv := emit (update_data_display "fringe-list" fr) gv in
  match get_list state "visited" with Raise e => (Raise e, gv) | Ok vi =>
  let gv := emit (update_data_display "visited-list" vi) gv in
  match get_list state "traversal" with Raise e => (Raise e, gv) | Ok tr =>
  let gv := emit (update_data_display "traversal-list" tr) gv in
  match get_list state "path" with Raise e => (Raise e, gv) | Ok pa =>
  let gv := emit (update_data_display "path-list" pa) gv in
  match get_info state with Raise e => (Raise e, gv) | Ok info =>
  let gv := emit [ShowInfo info] gv in
  match get_states state with Raise e => (Raise e, gv) | Ok states =>
  (* [if name in self.nodes: self.nodes[name].state = node_state] *)
  let gv := set_nodes (map_imap (λ name old,
               Some (default old (states !! name))) (nodes gv)) gv in
  (Ok tt, emit [Render] gv)
  end end end end end end%string.

Definition update_search_results (gv : t) : t :=
  match search_agent gv with
  | None => gv
  | Some agent =>
      emit [ShowResults
              (if success agent
               then Some (path_cost agent, length (path_found agent))
               else None)
              (nodes_explored agent)
              (length (animation_states gv))] gv
  end.

Definition animation_complete (gv : t) : t :=
  let gv := set_animation (animation_states gv) (current_state_index gv)
                          false (is_paused gv) gv in
  let gv := update_search_results gv in
  let gv := emit [Disabled "btn-start" false; Disabled "btn-pause" true]%string gv in
  if recording_gif gv then emit [GifFinish] gv else gv.

(** [l[i]] with Python's negative indices. *)
Definition getitem {T} (l : list T) (i : Z) : option T :=
  if (0 <=? i)%Z then l !! Z.to_nat i
  else if (0 <=? Z.of_nat (length l) + i)%Z
  then l !! Z.to_nat (Z.of_nat (length l) + i)
  else None.

(** One run of [animate_next_step]; the next one is left to the timer. *)
Definition animate_next_step (gv : t) : result unit * t :=
  if negb (is_animating gv) || is_paused gv then (Ok tt, gv)
  else if (current_state_index gv <? Z.of_nat (length (animation_states gv)) - 1)%Z
  then
    let index := (current_state_index gv + 1)%Z in
    let gv := set_animation (animation_states gv) index
                            (is_animating gv) (is_paused gv) gv in
    match getitem (animation_states gv) index with
    | None => (Raise IndexError, gv)
    | Some state =>
        let '(r, gv) := restore_search_state state gv in
        match r with
        | Raise e => (Raise e, gv)
        | Ok _ =>
            let gv := if recording_gif gv then emit [GifFrame] gv else gv in
            (* [int(1000 / self.animation_speed)] *)
            if (animation_speed gv =? 0)%Z then (Raise ZeroDivisionError, gv)
            else
              let delay := (1000 ÷ animation_speed gv)%Z in
              (Ok tt, set_timer true (emit [SetTimeout delay] gv))
        end
    end
  else (Ok tt, animation_complete gv).

(** The generator [start_search] picks for the selected algorithm; [None]
    when no branch of the [if]/[elif] chain applies. *)
Definition select_generator (doc : Document)
    : result (option (Gen SA)) :=
  let algo := algorithm_select doc in
  if bool_decide (algo = "bfs") then Ok (Some (breadth_first_search SA))
  else if bool_decide (algo = "dfs") then Ok (Some (depth_first_search SA))
  else if bool_decide (algo = "dls") then
    match depth_limit doc with
    | Some d => Ok (Some (depth_limited_search SA d))
    | None => Raise ValueError
    end
  else if bool_decide (algo = "ids") then
    match depth_limit doc with
    | Some d => Ok (Some (iterative_deepening_search SA d))
    | None => Raise ValueError
    end
  else if bool_decide (algo = "ucs") then Ok (Some (uniform_cost_search SA))
  else if bool_decide (algo = "bidirectional")
  then Ok (Some (bidirectional_search SA))
  else if bool_decide (algo = "greedy")
  then Ok (Some (greedy_best_first_search SA))
  else if bool_decide (algo = "astar") then Ok (Some (a_star_search SA))
  else Ok None.

(** [for _ in self.search_generator: state = self.capture_search_state();
    self.animation_states.append(state)]: resume the generator once; if it
    yielded, capture and record the state, and go round again.  [None]
    when [fuel] resumptions were not enough to reach the generator's end.
    The generator works on the agent it was made from, which is
    [self.search_agent]. *)
Fixpoint collect (fuel : nat) (gen : Gen SA) (gv : t)
    : option (result unit * t) :=
  match fuel with
  | O => None
  | S fuel' =>
      match search_agent gv with
      | None => Some (Raise AttributeError, gv)
      | Some agent =>
          match resume SA gen agent (nodes gv) with
          | Yield _ gen agent ns =>
              let gv := set_nodes ns
                          (set_search (Some agent) (Generator gen) gv) in
              match capture_search_state gv with
              | Raise e => Some (Raise e, gv)
              | Ok state =>
                  collect fuel' gen
                    (set_animation (animation_states gv ++ [state])
                       (current_state_index gv) (is_animating gv)
                       (is_paused gv) gv)
              end
          | StopIteration _ agent ns =>
              Some (Ok tt,
                    set_nodes ns (set_search (Some agent) Exhausted gv))
          | GenRaise _ e agent ns =>
              Some (Raise e,
                    set_nodes ns (set_search (Some agent) Exhausted gv))
          end
      end
  end.

Definition start_search (fuel : nat) (doc : Document) (gv : t)
    : option (result unit * t) :=
  if size (nodes gv) =? 0 then
    Some (Ok tt, emit [Alert "Please add nodes to the graph first"] gv)
  else match source_node gv with
  | None => Some (Ok tt, emit [Alert "Please set a source node"] gv)
  | Some source =>
  match goal_nodes gv with
  | [] => Some (Ok tt, emit [Alert "Please set a goal node"] gv)
  | goal :: _ =>
      let gv := clear_path (stop_search gv) in
      let gv := set_search (Some (new SA (nodes gv) source goal))
                           (search_generator gv) gv in
      match select_generator doc with
      | Raise e => Some (Raise e, gv)
      | Ok selected =>
          let gv :=
            match selected with
            | Some gen => set_search (search_agent gv) (Generator gen) gv
            | None => gv
            end in
          let gv := set_animation [] (-1) (is_animating gv) (is_paused gv) gv in
          let looped :=
            match search_generator gv with
            | NoGenerator => Some (Raise TypeError, gv)
            | Generator gen => collect fuel gen gv
            | Exhausted => Some (Ok tt, gv)
            end in
          match looped with
          | None => None
          | Some (Raise e, gv) => Some (Raise e, gv)
          | Some (Ok _, gv) =>
              let gv := set_animation (animation_states gv) (-1) true false gv in
              let gv := emit [Disabled "btn-start" true;
                              Disabled "btn-pause" false;
                              Disabled "btn-stop" false;
                              Disabled "btn-step-forward" false;
                              Disabled "btn-step-back" false] gv in
              Some (animate_next_step gv)
          end
      end
  end end%string.

(** The generator, agent and node states after [k] resumptions that all
    yielded. *)
Fixpoint after_yields (k : nat) (gen : Gen SA) (agent : SearchAgent)
    (ns : Nodes) : option (Gen SA * SearchAgent * Nodes) :=
  match k with
  | O => Some (gen, agent, ns)
  | S k' =>
      match resume SA gen agent ns with
      | Yield _ gen agent ns => after_yields k' gen agent ns
      | _ => None
      end
  end.

(** The state captured from a given agent and node states. *)
Definition snapshot_of (agent : SearchAgent) (ns : Nodes) : Snapshot :=
  [("fringe", VList (fringe_list agent));
   ("visited", VList (visited_list agent));
   ("traversal", VList (traversal_array agent));
   ("path", VList (path_found agent));
   ("node_states", VStates ns);
   ("current_info", VInfo (current_node_info agent))]%string.

Definition __init__ : t :=
  {| nodes := ∅; source_node := None; goal_nodes := [];
     search_agent := None; search_generator := NoGenerator;
     animation_states := []; current_state_index := -1;
     is_animating := false; is_paused := false; animation_speed := 5;
     animation_timer := false; recording_gif := false; effects := [] |}.

Definition step_forward (gv : t) : result unit * t :=
  if negb (length (animation_states gv) =? 0)
     && (current_state_index gv <? Z.of_nat (length (animation_states gv)) - 1)%Z
  then
    let index := (current_state_index gv + 1)%Z in
    let gv := set_animation (animation_states gv) index
                            (is_animating gv) (is_paused gv) gv in
    match getitem (animation_states gv) index with
    | None => (Raise IndexError, gv)
    | Some state =>
        let '(r, gv) := restore_search_state state gv in
        match r with
        | Raise e => (Raise e, gv)
        | Ok _ =>
            if (current_state_index gv =?
                Z.of_nat (length (animation_states gv)) - 1)%Z
            then (Ok tt, update_search_results gv)
            else (Ok tt, gv)
        end
    end
  else (Ok tt, gv).

Definition step_backward (gv : t) : result unit * t :=
  if negb (length (animation_states gv) =? 0)
     && (0 <? current_state_index gv)%Z
  then
    let index := (current_state_index gv - 1)%Z in
    let gv := set_animation (animation_states gv) index
                            (is_animating gv) (is_paused gv) gv in
    match getitem (animation_states gv) index with
    | None => (Raise IndexError, gv)
    | Some state => restore_search_state state gv
    end
  else (Ok tt, gv).

(** What [toggle_pause] writes on the pause button. *)
Inductive pause_label : Set :=
| ResumeLabel
| PauseLabel.

(** [toggle_pause]: the new label of the button and the rest.  Redrawing
    the icons afterwards is left to the page. *)
Definition toggle_pause (gv : t) : pause_label * (result unit * t) :=
  let gv := set_animation (animation_states gv) (current_state_index gv)
                          (is_animating gv) (negb (is_paused gv)) gv in
  if is_paused gv then
    (ResumeLabel,
     (Ok tt, if animation_timer gv then emit [ClearTimeout] gv else gv))
  else (PauseLabel, animate_next_step gv).

(** The timer calling [animate_next_step] [n] times, as long as it does not
    raise. *)
Fixpoint ticks (n : nat) (gv : t) : result unit * t :=
  match n with
  | O => (Ok tt, gv)
  | S n' =>
      match animate_next_step gv with
      | (Ok _, gv) => ticks n' gv
      | (Raise e, gv) => (Raise e, gv)
      end
  end.

(** A state as [capture_search_state] makes them. *)
Definition captured (state : Snapshot) : Prop :=
  ∃ agent ns, state = snapshot_of agent ns.

(** The frame shown is one of the recorded ones, or none yet ([-1]). *)
Definition index_ok (gv : t) : Prop :=
  (-1 ≤ current_state_index gv < Z.of_nat (length (animation_states gv)))%Z.

End GraphVisualizer.

Arguments g {number} _.
Arguments h {number} _.
Arguments f {number} _.
Arguments fringe_list {number} _.
Arguments visited_list {number} _.
Arguments traversal_array {number} _.
Arguments path_found {number} _.
Arguments current_node_info {number} _.
Arguments success {number} _.
Arguments path_cost {number} _.
Arguments nodes_explored {number} _.
Arguments Yield {number Gen} _ _ _.
Arguments StopIteration {number Gen} _ _.
Arguments GenRaise {number Gen} _ _ _.
Arguments Gen {number} _.
Arguments new {number} _ _ _ _.
Arguments resume {number} _ _ _ _.
Arguments VList {number} _.
Arguments VStates {number} _.
Arguments VInfo {number} _.
Arguments Alert {number} _.
Arguments Disabled {number} _ _.
Arguments ShowList {number} _ _.
Arguments ShowEmpty {number} _ _.
Arguments ShowInfo {number} _.
Arguments ShowInfoZero {number}.
Arguments ShowReady {number}.
Arguments ShowResults {number} _ _ _.
Arguments Render {number}.
Arguments SetTimeout {number} _.
Arguments ClearTimeout {number}.
Arguments GifFrame {number}.
Arguments GifFinish {number}.
Arguments NoGenerator {number SA}.
Arguments Generator {number SA} _.
Arguments Exhausted {number SA}.
Arguments nodes {number SA} _.
Arguments source_node {number SA} _.
Arguments goal_nodes {number SA} _.
Arguments search_agent {number SA} _.
Arguments search_generator {number SA} _.
Arguments animation_states {number SA} _.
Arguments current_state_index {number SA} _.
Arguments is_animating {number SA} _.
Arguments is_paused {number SA} _.
Arguments animation_speed {number SA} _.
Arguments animation_timer {number SA} _.
Arguments recording_gif {number SA} _.
Arguments effects {number SA} _.
Arguments emit {number SA} _ _.
Arguments set_nodes {number SA} _ _.
Arguments set_search {number SA} _ _ _.
Arguments set_animation {number SA} _ _ _ _ _.
Arguments set_timer {number SA} _ _.
Arguments capture_search_state {number SA} _.
Arguments stop_search {number SA} _.
Arguments clear_path {number SA} _.
Arguments restore_search_state {number SA} _ _.
Arguments update_search_results {number SA} _.
Arguments animation_complete {number SA} _.
Arguments animate_next_step {number SA} _.
Arguments select_generator {number} SA _.
Arguments collect {number SA} _ _ _.
Arguments start_search {number SA} _ _ _.
Arguments after_yields {number} SA _ _ _ _.
Arguments snapshot_of {number} _ _.
Arguments __init__ {number SA}.
Arguments step_forward {number SA} _.
Arguments step_backward {number SA} _.
Arguments toggle_pause {number SA} _.
Arguments ticks {number SA} _ _.
Arguments captured {number} _.
Arguments index_ok {number SA} _.
Arguments cleared_state {number SA} _ _ _.
Arguments update_data_display {number} _ _.
Arguments getitem {T} _ _.

End GraphVisualizer.

(** ** main.py: undo and redo of class [GraphVisualizer] *)

Module History.
Section History.

(** The part of the visualizer that is saved: [nodes] with all they carry,
    [node_counter], [source_node] and [goal_nodes]. *)
Variable Graph : Type.

(** The JSON text of a saved state. *)
Variable Saved : Type.

(** [json.dumps({'nodes': ..., 'node_counter': ..., 'source': ...,
    'goals': ...})] of the current graph; it goes through [Node.to_dict],
    which is not part of the sources. *)
Variable dumps : Graph → Saved.

(** [self.restore_state(json.loads(text))], which rebuilds the graph with
    [Node(...)] and [add_neighbor], not part of the sources; it may raise
    half way. *)
Variable restore_state : Saved → Graph → result unit * Graph.

Record t : Type := Build {
  graph : Graph;
  undo_stack : list Saved;
  redo_stack : list Saved
}.

Definition __init__ (g : Graph) : t :=
  {| graph := g; undo_stack := []; redo_stack := [] |}.

Definition save_state (h : t) : t :=
  let undo := undo_stack h ++ [dumps (graph h)] in
  {| graph := graph h;
     undo_stack := if 50 <? length undo then delete 0 undo else undo;
     redo_stack := [] |}.

Definition undo (h : t) : result unit * t :=
  if 0 <? length (undo_stack h) then
    let current := dumps (graph h) in
    let redo := redo_stack h ++ [current] in
    match last (undo_stack h) with
    | None =>
        (Raise IndexError,
         {| graph := graph h; undo_stack := undo_stack h; redo_stack := redo |})
    | Some state =>
        let '(r, g) := restore_state state (graph h) in
        (r, {| graph := g; undo_stack := removelast (undo_stack h);
               redo_stack := redo |})
    end
  else (Ok tt, h).

Definition redo (h : t) : result unit * t :=
  if 0 <? length (redo_stack h) then
    let current := dumps (graph h) in
    let undo := undo_stack h ++ [current] in
    match last (redo_stack h) with
    | None =>
        (Raise IndexError,
         {| graph := graph h; undo_stack := undo; redo_stack := redo_stack h |})
    | Some state =>
        let '(r, g) := restore_state state (graph h) in
        (r, {| graph := g; undo_stack := undo;
               redo_stack := removelast (redo_stack h) |})
    end
  else (Ok tt, h).

(** What the user does: an edit of the graph, which ends with
    [self.save_state()] ([add_node], [delete_node], [add_edge], ...), an
    undo or a redo. *)
Inductive action : Type :=
| Edit (change : Graph → Graph)
| Undo
| Redo.

Definition act (a : action) (h : t) : t :=
  match a with
  | Edit change =>
      save_state {| graph := change (graph h); undo_stack := undo_stack h;
                    redo_stack := redo_stack h |}
  | Undo => (undo h).2
  | Redo => (redo h).2
  end.

Definition run (actions : list action) (h : t) : t :=
  fold_left (λ acc a, act a acc) actions h.

End History.

Arguments graph {Graph Saved} _.
Arguments undo_stack {Graph Saved} _.
Arguments redo_stack {Graph Saved} _.
Arguments __init__ {Graph Saved} _.
Arguments save_state {Graph Saved} _ _.
Arguments undo {Graph Saved} _ _ _.
Arguments redo {Graph Saved} _ _ _.
Arguments Edit {Graph} _.
Arguments Undo {Graph}.
Arguments Redo {Graph}.
Arguments act {Graph Saved} _ _ _ _.
Arguments run {Graph Saved} _ _ _ _.

End History.

(** ** A small engine and two graphs for the examples

  The engine walks along the line 0, 1, 2, ... up to the goal, one vertex
  per step. *)

Module Fixtures.
Import GraphVisualizer.

Definition line_agent (source goal : nat) : SearchAgent Z :=
  {| fringe_list := [source]; visited_list := []; traversal_array := [];
     path_found := [];
     current_node_info := {| g := 0%Z; h := 0%Z; f := 0%Z |};
     success := false; path_cost := 0%Z; nodes_explored := 0 |}.

Definition line_resume (goal : nat) (k : nat) (a : SearchAgent Z)
    (ns : gmap nat string) : resumed Z nat :=
  if goal <? k then StopIteration a ns
  else
    Yield (S k)
      {| fringe_list := if k <? goal then [S k] else [];
         visited_list := visited_list a ++ [k];
         traversal_array := traversal_array a ++ [k];
         path_found := if k =? goal then seq 0 (S goal) else [];
         current_node_info :=
           {| g := Z.of_nat k; h := 0%Z; f := Z.of_nat k |};
         success := k =? goal;
         path_cost := if k =? goal then Z.of_nat goal else 0%Z;
         nodes_explored := S (nodes_explored a) |}
      (<[k := "visited"%string]> ns).

Definition line_walk (goal : nat) : SearchAgentClass Z :=
  {| Gen := nat;
     new := λ _ source goal, line_agent source goal;
     breadth_first_search := 0;
     depth_first_search := 0;
     depth_limited_search := λ _, 0;
     iterative_deepening_search := λ _, 0;
     uniform_cost_search := 0;
     bidirectional_search := 0;
     greedy_best_first_search := 0;
     a_star_search := 0;
     resume := line_resume goal |}.

(** The line 0 - 1 - 2 with source 0 and goal 2, before any search. *)
Definition line_graph : t Z (line_walk 2) :=
  {| nodes := <[0 := "source"]> (<[1 := "empty"]> (<[2 := "goal"]> ∅));
     source_node := Some 0; goal_nodes := [2];
     search_agent := None; search_generator := NoGenerator;
     animation_states := []; current_state_index := -1;
     is_animating := false; is_paused := false; animation_speed := 5;
     animation_timer := false; recording_gif := false; effects := [] |}%string.

(** The same graph once [start_search] has made the agent and the
    generator. *)
Definition line_started : t Z (line_walk 2) :=
  set_search (Some (line_agent 0 2))
    (Generator (breadth_first_search Z (line_walk 2))) line_graph.

(** Two nodes and a goal, but no source. *)
Definition no_source_graph : t Z (line_walk 2) :=
  {| nodes := <[0 := "empty"]> (<[1 := "goal"]> ∅);
     source_node := None; goal_nodes := [1];
     search_agent := None; search_generator := NoGenerator;
     animation_states := []; current_state_index := -1;
     is_animating := false; is_paused := false; animation_speed := 5;
     animation_timer := false; recording_gif := false; effects := [] |}%string.

Definition bfs_selected : Document :=
  {| algorithm_select := "bfs"; depth_limit := Some 3%Z |}.

(** A priority queue with a history: 7 pushed, 3 pushed, 7 pushed again. *)
Definition pq_example : PriorityQueue.t :=
  (PriorityQueue.push 7 5
     (PriorityQueue.push 3 2
        (PriorityQueue.push 7 1 PriorityQueue.__init__).2).2).2.

(** The line graph after [start_search] with ['bfs'] selected: three
    recorded frames, the first of them on show. *)
Definition line_recorded : t Z (line_walk 2) :=
  Eval vm_compute in
  match start_search 10 bfs_selected line_graph with
  | Some (_, gv) => gv
  | None => line_graph
  end.

(** ['dls'] selected with a depth-limit field that is not a number. *)
Definition dls_no_depth : Document :=
  {| algorithm_select := "dls"; depth_limit := None |}.

(** A selection that is none of the eight algorithms. *)
Definition unknown_selected : Document :=
  {| algorithm_select := "best"; depth_limit := Some 3%Z |}.

(** The line graph after a finished search, its generator at its end. *)
Definition line_finished : t Z (line_walk 2) :=
  set_search (Some (line_agent 0 2)) Exhausted line_graph.

End Fixtures.

(** * Properties *)

(** ** [heapq] on small inputs *)

Example heappush_ex :
  fold_left (heapq.heappush Nat.ltb) [5; 3; 8; 1; 4; 1] [] = [1; 3; 1; 5; 4; 8].
Proof. reflexivity. Qed.

Example heappop_ex :
  heapq.heappop Nat.ltb [1; 3; 1; 5; 4; 8] = Some (1, [1; 3; 8; 5; 4]).
Proof. reflexivity. Qed.

Example pq_example_state :
  PriorityQueue.heap Fixtures.pq_example = [0; 1; 2]
  ∧ PriorityQueue.node <$> PriorityQueue.store Fixtures.pq_example =
      [PriorityQueue.REMOVED; PriorityQueue.Live 3; PriorityQueue.Live 7]
  ∧ PriorityQueue.__len__ Fixtures.pq_example = 2
  ∧ fst <$> PriorityQueue.pop Fixtures.pq_example = Some (Ok 3).
Proof. by vm_compute. Qed.

(** ** The heap invariant of [heapq] *)

Section heapq_facts.
Context {A : Type} (lt : A → A → bool).
Implicit Types (v heap : list A) (i j pos : nat).
Local Abbreviation hole_inv := (heapq.hole_inv lt).
Local Abbreviation below_ok := (heapq.below_ok lt).

Lemma parent_div pos : heapq.parent pos = (pos - 1) / 2.
Proof. unfold heapq.parent. by rewrite Nat.shiftr_div_pow2. Qed.

Lemma parent_lt pos : 0 < pos → heapq.parent pos < pos.
Proof. rewrite parent_div. lia. Qed.

Lemma parent_child c pos :
  0 < c → heapq.parent c = pos ↔ c = 2 * pos + 1 ∨ c = 2 * pos + 2.
Proof. rewrite parent_div. lia. Qed.

Lemma insert_perm_delete (l : list A) i x y :
  l !! i = Some y → <[i:=x]> l ≡ₚ x :: delete i l.
Proof.
  revert i. induction l as [|z l IH]; intros [|i] Hi; simplify_eq/=; [done|].
  rewrite (IH _ Hi). apply Permutation_swap.
Qed.

Lemma swap_perm (l : list A) i j a b :
  l !! i = Some a → l !! j = Some b → <[i:=b]> (<[j:=a]> l) ≡ₚ l.
Proof.
  revert i j. induction l as [|z l IH]; intros [|i] [|j] Hi Hj; simplify_eq/=.
  - done.
  - etrans; [apply Permutation_skip, (insert_perm_delete _ _ _ _ Hj)|].
    etrans; [apply Permutation_swap|].
    apply Permutation_skip. symmetry. by apply delete_Permutation.
  - etrans; [apply Permutation_skip, (insert_perm_delete _ _ _ _ Hi)|].
    etrans; [apply Permutation_swap|].
    apply Permutation_skip. symmetry. by apply delete_Permutation.
  - by rewrite IH.
Qed.

(** The iteration bounds of the two loops are never what stops them. *)
Lemma siftdown_loop_fuel fuel fuel' heap startpos pos newitem :
  pos ≤ fuel → pos ≤ fuel' →
  heapq._siftdown_loop lt fuel heap startpos pos newitem =
  heapq._siftdown_loop lt fuel' heap startpos pos newitem.
Proof.
  revert fuel' heap pos.
  induction fuel as [|fuel IH]; intros [|fuel'] heap pos Hf Hf'; simpl;
    try done.
  - by replace (startpos <? pos) with false by lia.
  - by replace (startpos <? pos) with false by lia.
  - destruct (Nat.ltb_spec startpos pos) as [Hpos|]; [|done].
    destruct (heap !! heapq.parent pos); [|done].
    destruct (lt newitem a); [|done].
    pose proof (parent_lt pos). apply IH; lia.
Qed.

Lemma siftup_loop_fuel fuel fuel' heap endpos pos :
  endpos - pos ≤ fuel → endpos - pos ≤ fuel' →
  heapq._siftup_loop lt fuel heap endpos pos =
  heapq._siftup_loop lt fuel' heap endpos pos.
Proof.
  revert fuel' heap pos.
  induction fuel as [|fuel IH]; intros [|fuel'] heap pos Hf Hf';
    cbn [heapq._siftup_loop]; try done.
  - by replace (2 * pos + 1 <? endpos) with false by lia.
  - by replace (2 * pos + 1 <? endpos) with false by lia.
  - destruct (Nat.ltb_spec (2 * pos + 1) endpos) as [Hc|]; [|done].
    set (c := if 2 * pos + 1 + 1 <? endpos
              then match heap !! (2 * pos + 1), heap !! (2 * pos + 1 + 1) with
                   | Some l, Some r =>
                       if lt l r then 2 * pos + 1 else 2 * pos + 1 + 1
                   | _, _ => 2 * pos + 1
                   end
              else 2 * pos + 1).
    assert (pos < c).
    { unfold c. repeat case_match; lia. }
    destruct (heap !! c); [|done]. apply IH; lia.
Qed.

Hypothesis lt_asym : ∀ x y, lt x y = true → lt y x = false.
Hypothesis lt_negtrans :
  ∀ x y z, lt y x = false → lt z y = false → lt z x = false.

Lemma lt_irrefl x : lt x x = false.
Proof. destruct (lt x x) eqn:E; [|done]. by rewrite (lt_asym _ _ E) in E. Qed.

Lemma hole_closed v pos :
  hole_inv v pos → below_ok v pos →
  (0 < pos → heapq.edge_ok lt v pos) → heapq.is_heap lt v.
Proof.
  intros [H1 _] H3 Hp i Hi.
  destruct (decide (i = pos)) as [->|]; [by apply Hp|].
  destruct (decide (heapq.parent i = pos)); [by apply H3|].
  by apply H1.
Qed.

(** One exchange of the hole with its parent, on the list with the hole
    filled in. *)
Lemma swap_lookup v pos p n par k :
  pos ≠ p → v !! pos = Some n → v !! p = Some par →
  <[p:=n]> (<[pos:=par]> v) !! k =
    if decide (k = p) then Some n
    else if decide (k = pos) then Some par else v !! k.
Proof.
  intros Hne Hn Hp.
  assert (p < length v) by (by eapply lookup_lt_Some).
  assert (pos < length v) by (by eapply lookup_lt_Some).
  destruct (decide (k = p)) as [->|Hkp].
  { apply list_lookup_insert_eq. by rewrite length_insert. }
  rewrite list_lookup_insert_ne by done.
  destruct (decide (k = pos)) as [->|Hkpos].
  { by apply list_lookup_insert_eq. }
  by apply list_lookup_insert_ne.
Qed.

Lemma siftdown_step_inv v pos n par :
  0 < pos → v !! pos = Some n → v !! heapq.parent pos = Some par →
  lt n par = true →
  hole_inv v pos → below_ok v pos →
  let v' := <[heapq.parent pos:=n]> (<[pos:=par]> v) in
  hole_inv v' (heapq.parent pos) ∧ below_ok v' (heapq.parent pos).
Proof.
  intros Hpos Hn Hpar Hlt [HA HB] HC v'.
  pose proof (parent_lt pos Hpos) as Hp.
  set (p := heapq.parent pos) in *.
  assert (Hl : ∀ k, v' !! k = if decide (k = p) then Some n
            else if decide (k = pos) then Some par else v !! k).
  { intros k. apply swap_lookup; [lia|done..]. }
  split; [split|].
  - intros i Hi Hip Hipp x y. rewrite !Hl.
    pose proof (parent_lt i Hi).
    repeat case_decide; try lia; intros; simplify_eq; try lia.
    + eapply (HB Hpos i); eauto.
    + eapply HA; eauto.
  - intros Hp0 c x y Hc Hcp. rewrite !Hl.
    pose proof (parent_lt p Hp0).
    repeat case_decide; try lia; intros; simplify_eq; try lia.
    + eapply (HA (heapq.parent pos)); eauto; lia.
    + apply (lt_negtrans y par x).
      * eapply (HA (heapq.parent pos)); eauto; lia.
      * eapply (HA c); eauto; [lia|by rewrite Hcp].
  - intros c Hc Hcp x y. rewrite !Hl.
    pose proof (parent_lt c Hc).
    repeat case_decide; try lia; intros; simplify_eq; try lia.
    + by apply lt_asym.
    + eapply lt_negtrans; [by apply lt_asym|].
      eapply (HA c); eauto; [lia|by rewrite Hcp].
Qed.

Lemma siftdown_loop_spec fuel heap pos newitem :
  pos ≤ fuel → pos < length heap →
  hole_inv (<[pos:=newitem]> heap) pos →
  below_ok (<[pos:=newitem]> heap) pos →
  heapq.is_heap lt (heapq._siftdown_loop lt fuel heap 0 pos newitem)
  ∧ heapq._siftdown_loop lt fuel heap 0 pos newitem ≡ₚ <[pos:=newitem]> heap.
Proof.
  revert heap pos.
  induction fuel as [|fuel IH]; intros heap pos Hf Hlen Hh Hb; simpl.
  { split; [|done]. apply (hole_closed _ pos); [done..|lia]. }
  destruct (Nat.ltb_spec 0 pos) as [Hpos|Hpos]; last first.
  { split; [|done]. apply (hole_closed _ pos); [done..|lia]. }
  pose proof (parent_lt pos Hpos) as Hp.
  destruct (lookup_lt_is_Some_2 heap (heapq.parent pos)) as [par Hpar]; [lia|].
  rewrite Hpar.
  assert (Hvn : <[pos:=newitem]> heap !! pos = Some newitem)
    by (by apply list_lookup_insert_eq).
  assert (Hvp : <[pos:=newitem]> heap !! heapq.parent pos = Some par)
    by (rewrite list_lookup_insert_ne; [done|lia]).
  destruct (lt newitem par) eqn:Hlt.
  - destruct (siftdown_step_inv _ pos newitem par Hpos Hvn Hvp Hlt Hh Hb)
      as [Hh' Hb'].
    rewrite list_insert_insert_eq in Hh', Hb'.
    destruct (IH (<[pos:=par]> heap) (heapq.parent pos)) as [IH1 IH2];
      [lia|rewrite length_insert; lia|done..|].
    split; [done|]. rewrite IH2.
    rewrite <-(list_insert_insert_eq heap pos par newitem).
    by apply swap_perm.
  - split; [|done]. apply (hole_closed _ pos); [done..|].
    intros _ x y. rewrite Hvn, Hvp. by intros [= <-] [= <-].
Qed.

Lemma siftup_step_inv v pos c n cv :
  0 < c → heapq.parent c = pos →
  v !! pos = Some n → v !! c = Some cv →
  (∀ s x, 0 < s → heapq.parent s = pos → s ≠ c → v !! s = Some x →
     lt x cv = false) →
  hole_inv v pos →
  hole_inv (<[c:=n]> (<[pos:=cv]> v)) c.
Proof.
  intros Hc Hcp Hn Hcv Hsib [HA HB].
  pose proof (parent_lt c Hc) as Hlt.
  set (v' := <[c:=n]> (<[pos:=cv]> v)).
  assert (Hl : ∀ k, v' !! k = if decide (k = c) then Some n
            else if decide (k = pos) then Some cv else v !! k).
  { intros k. apply swap_lookup; [lia|done..]. }
  split.
  - intros i Hi Hic Hipc x y. rewrite !Hl.
    pose proof (parent_lt i Hi).
    repeat case_decide; try lia; intros; simplify_eq; try lia.
    + eapply (HB Hi c); eauto.
    + eapply Hsib; eauto.
    + eapply HA; eauto.
  - intros _ g x y Hg Hgc. rewrite !Hl.
    pose proof (parent_lt g Hg).
    repeat case_decide; try lia; intros; simplify_eq; try lia.
    eapply (HA g); eauto; lia.
Qed.

Lemma siftup_loop_spec fuel heap pos n :
  length heap - pos ≤ fuel → pos < length heap →
  hole_inv (<[pos:=n]> heap) pos →
  ∃ heap' pos',
    heapq._siftup_loop lt fuel heap (length heap) pos = (heap', pos')
    ∧ pos' < length heap'
    ∧ hole_inv (<[pos':=n]> heap') pos'
    ∧ below_ok (<[pos':=n]> heap') pos'
    ∧ <[pos':=n]> heap' ≡ₚ <[pos:=n]> heap.
Proof.
  revert heap pos.
  induction fuel as [|fuel IH]; intros heap pos Hf Hlen Hh; [lia|]. simpl.
  assert (Hleaf : length heap ≤ 2 * pos + 1 →
                  below_ok (<[pos:=n]> heap) pos).
  { intros Hle c Hc Hcp x y Hx.
    apply lookup_lt_Some in Hx. rewrite length_insert in Hx.
    apply parent_child in Hcp; [lia|done]. }
  destruct (Nat.ltb_spec (pos + (pos + 0) + 1) (length heap)) as [Hc|Hc];
    last by (eexists _, _; split_and!; [done..|apply Hleaf; lia|done]).
  set (c0 := pos + (pos + 0) + 1) in *.
  destruct (lookup_lt_is_Some_2 heap c0) as [l Hl]; [done|].
  assert (Hvn : <[pos:=n]> heap !! pos = Some n)
    by (by apply list_lookup_insert_eq).
  (* the chosen child [c], its value [cv], and why it is the smaller one *)
  assert (∃ c cv,
    (if c0 + 1 <? length heap
     then match heap !! c0, heap !! (c0 + 1) with
          | Some l, Some r => if lt l r then c0 else c0 + 1
          | _, _ => c0
          end
     else c0) = c
    ∧ heap !! c = Some cv ∧ 0 < c ∧ heapq.parent c = pos
    ∧ ∀ s x, 0 < s → heapq.parent s = pos → s ≠ c →
        heap !! s = Some x → lt x cv = false) as (c & cv & -> & Hcv & Hc0 & Hcp & Hsib).
  { assert (heapq.parent c0 = pos) by (apply parent_child; lia).
    assert (heapq.parent (c0 + 1) = pos) by (apply parent_child; lia).
    assert (Hkids : ∀ s, 0 < s → heapq.parent s = pos → s = c0 ∨ s = c0 + 1).
    { intros s Hs Hsp. apply parent_child in Hsp; lia. }
    destruct (Nat.ltb_spec (c0 + 1) (length heap)) as [Hr|Hr].
    - destruct (lookup_lt_is_Some_2 heap (c0 + 1)) as [r Hrv]; [done|].
      rewrite Hl, Hrv. destruct (lt l r) eqn:Hlr.
      + exists c0, l. split_and!; [done|done|lia|done|].
        intros s x Hs Hsp Hne Hx. destruct (Hkids s Hs Hsp); simplify_eq.
        by apply lt_asym.
      + exists (c0 + 1), r. split_and!; [done|done|lia|done|].
        intros s x Hs Hsp Hne Hx. destruct (Hkids s Hs Hsp); by simplify_eq.
    - exists c0, l. split_and!; [done|done|lia|done|].
      intros s x Hs Hsp Hne Hx. destruct (Hkids s Hs Hsp); simplify_eq.
      apply lookup_lt_Some in Hx. lia. }
  rewrite Hcv.
  pose proof (parent_lt c Hc0) as Hpc.
  assert (Hclen : c < length heap) by (by eapply lookup_lt_Some).
  destruct (IH (<[pos:=cv]> heap) c) as (heap' & pos' & Heq & Hlen' & Hh' & Hb' & Hp');
    [rewrite length_insert; lia|rewrite length_insert; lia| |].
  { rewrite <-(list_insert_insert_eq heap pos cv n).
    apply siftup_step_inv; [done..| | |done].
    - rewrite list_lookup_insert_ne; [done|lia].
    - intros s x Hs Hsp Hne. rewrite list_lookup_insert_ne; [eauto|].
      pose proof (parent_lt s Hs). lia. }
  rewrite length_insert in Heq. rewrite Heq.
  eexists _, _; split_and!; [done..|].
  rewrite Hp'. rewrite <-(list_insert_insert_eq heap pos cv n).
  apply swap_perm; [|done].
  rewrite list_lookup_insert_ne; [done|lia].
Qed.

Lemma siftup_root_spec heap :
  0 < length heap → hole_inv heap 0 →
  heapq.is_heap lt (heapq._siftup lt heap 0)
  ∧ heapq._siftup lt heap 0 ≡ₚ heap.
Proof.
  intros Hlen Hh. unfold heapq._siftup.
  destruct (lookup_lt_is_Some_2 heap 0) as [n Hn]; [done|]. rewrite Hn.
  destruct (siftup_loop_spec (length heap - 0) heap 0 n)
    as (heap' & pos' & -> & Hlen' & Hh' & Hb' & Hp'); [lia|done| |].
  { by rewrite list_insert_id. }
  unfold heapq._siftdown.
  rewrite list_lookup_insert_eq by done.
  destruct (siftdown_loop_spec pos' (<[pos':=n]> heap') pos' n) as [H1 H2];
    [lia|by rewrite length_insert|by rewrite list_insert_insert_eq..|].
  split; [done|].
  by rewrite H2, list_insert_insert_eq, Hp', list_insert_id.
Qed.

Lemma heappush_spec heap item :
  heapq.is_heap lt heap →
  heapq.is_heap lt (heapq.heappush lt heap item)
  ∧ heapq.heappush lt heap item ≡ₚ item :: heap.
Proof.
  intros Hheap. unfold heapq.heappush, heapq._siftdown.
  rewrite length_app, Nat.add_sub. simpl.
  assert (Hlast : (heap ++ [item]) !! length heap = Some item)
    by (by rewrite lookup_app_r, Nat.sub_diag).
  rewrite Hlast.
  assert (Hbeyond : ∀ c x, length heap < c → (heap ++ [item]) !! c = Some x → False).
  { intros c x Hc Hx%lookup_lt_Some. rewrite length_app in Hx. simpl in Hx. lia. }
  destruct (siftdown_loop_spec (length heap) (heap ++ [item]) (length heap) item)
    as [H1 H2]; [done|rewrite length_app; simpl; lia|..].
  - rewrite list_insert_id by done. split.
    + intros i Hi Hne Hpne x y Hx Hy.
      pose proof (parent_lt i Hi).
      destruct (decide (i < length heap)) as [Hlt|Hge];
        [|exfalso; apply (Hbeyond i x); [lia|done]].
      rewrite lookup_app_l in Hx, Hy by lia. by eapply Hheap.
    + intros _ c x y Hc Hcp Hx. exfalso. apply (Hbeyond c x); [|done].
      pose proof (parent_lt c Hc). lia.
  - rewrite list_insert_id by done.
    intros c Hc Hcp x y Hx. exfalso. apply (Hbeyond c x); [|done].
    pose proof (parent_lt c Hc). lia.
  - split; [done|]. rewrite H2, list_insert_id by done.
    by rewrite Permutation_app_comm.
Qed.

Lemma heappop_None heap : heapq.heappop lt heap = None ↔ heap = [].
Proof.
  unfold heapq.heappop. split; [|by intros ->].
  destruct (last heap) eqn:E; [|by intros _; apply last_None].
  by destruct (removelast heap).
Qed.

Lemma heappop_spec heap x heap' :
  heapq.is_heap lt heap →
  heapq.heappop lt heap = Some (x, heap') →
  heap !! 0 = Some x ∧ heap ≡ₚ x :: heap' ∧ heapq.is_heap lt heap'.
Proof.
  intros Hheap. unfold heapq.heappop.
  destruct (last heap) as [lastelt|] eqn:E; [|done].
  apply last_Some in E as [front ->]. rewrite removelast_last.
  destruct front as [|r t]; intros [= <- <-].
  { split_and!; [done..|]. by intros i Hi x y Hx%lookup_lt_Some. }
  destruct (siftup_root_spec (<[0:=lastelt]> (r :: t))) as [H1 H2].
  { simpl. lia. }
  { split; [|lia]. intros i Hi H0 Hp0 x y. simpl.
    pose proof (parent_lt i Hi).
    destruct i as [|i]; [lia|]. simpl.
    destruct (heapq.parent (S i)) as [|p] eqn:Ep; [done|]. simpl.
    intros Hx Hy. apply (Hheap (S i) Hi); rewrite ?Ep; simpl.
    - by apply lookup_app_l_Some.
    - by apply lookup_app_l_Some. }
  split_and!; [done| |done].
  simpl. apply Permutation_skip. rewrite H2. simpl.
  apply (Permutation_app_comm t [lastelt]).
Qed.

Lemma root_min heap r :
  heapq.is_heap lt heap → heap !! 0 = Some r →
  ∀ i x, heap !! i = Some x → lt x r = false.
Proof.
  intros Hheap Hr i. induction (lt_wf i) as [i _ IH]. intros x Hx.
  destruct (decide (i = 0)) as [->|Hi].
  { simplify_eq. apply lt_irrefl. }
  assert (0 < i) as Hpos by lia.
  pose proof (parent_lt i Hpos) as Hp.
  destruct (lookup_lt_is_Some_2 heap (heapq.parent i)) as [y Hy].
  { apply lookup_lt_Some in Hx. lia. }
  eapply lt_negtrans; [by eapply IH|by eapply Hheap].
Qed.
End heapq_facts.


(** ** The priority queue *)

Section heap_ext.
Context {A : Type}.

Lemma is_heap_ext (lt lt' : A → A → bool) (h : list A) :
    (∀ x y, x ∈ h → y ∈ h → lt x y = lt' x y) →
    heapq.is_heap lt h → heapq.is_heap lt' h.
  Proof.
    intros Hext Hh i Hi x y Hx Hy. rewrite <-Hext.
    - by eapply Hh.
    - by eapply list_elem_of_lookup_2.
    - by eapply list_elem_of_lookup_2.
Qed.
End heap_ext.

Section PriorityQueue_facts.
Import PriorityQueue.
Implicit Types (st : list entry) (a b c e : nat) (n : nat) (q : t).


Lemma entry_lt_asym st a b : entry_lt st a b = true → entry_lt st b a = false.
Proof. unfold entry_lt. simpl. lia. Qed.

Lemma entry_lt_negtrans st a b c :
  entry_lt st b a = false → entry_lt st c b = false → entry_lt st c a = false.
Proof. unfold entry_lt. simpl. lia. Qed.

Lemma entry_lt_before st a b :
  entry_lt st a b = true ↔ before st a b.
Proof. unfold entry_lt, before. simpl. lia. Qed.

(** Assigning to the last slot of an entry leaves the keys alone. *)
Lemma tombstone_priority st e a :
  priority (<[e:=tombstone (st !!! e)]> st !!! a) = priority (st !!! a).
Proof.
  rewrite list_lookup_total_insert. case_decide as H; [|done].
  by destruct H as [-> _].
Qed.

Lemma tombstone_count st e a :
  count (<[e:=tombstone (st !!! e)]> st !!! a) = count (st !!! a).
Proof.
  rewrite list_lookup_total_insert. case_decide as H; [|done].
  by destruct H as [-> _].
Qed.

Lemma tombstone_node st e a :
  e < length st →
  node (<[e:=tombstone (st !!! e)]> st !!! a) =
    if decide (a = e) then REMOVED else node (st !!! a).
Proof.
  intros. destruct (decide (a = e)) as [->|].
  - by rewrite list_lookup_total_insert_eq.
  - by rewrite list_lookup_total_insert_ne.
Qed.

Lemma tombstone_entry_lt st e a b :
  entry_lt (<[e:=tombstone (st !!! e)]> st) a b = entry_lt st a b.
Proof. unfold entry_lt. simpl. by rewrite !tombstone_priority, !tombstone_count. Qed.

Lemma alloc_entry_lt st x a b :
  a < length st → b < length st →
  entry_lt (st ++ [x]) a b = entry_lt st a b.
Proof. intros. unfold entry_lt. simpl. by rewrite !lookup_total_app_l. Qed.

Lemma pq_inv_init : pq_inv __init__.
Proof.
  split; simpl; try (intros; set_solver).
  - by intros i Hi x y Hx%lookup_lt_Some.
  - constructor.
Qed.

Lemma pq_inv_clear q : pq_inv (clear q).
Proof.
  split; simpl; try (intros; set_solver).
  - by intros i Hi x y Hx%lookup_lt_Some.
  - constructor.
Qed.

Lemma remove_Some n q e :
  entry_finder q !! n = Some e →
  remove n q = (Ok tt,
    {| store := <[e := tombstone (store q !!! e)]> (store q);
       heap := heap q; counter := counter q;
       entry_finder := delete n (entry_finder q) |}).
Proof. unfold remove. by intros ->. Qed.

Lemma remove_None n q :
  entry_finder q !! n = None → remove n q = (Raise KeyError, q).
Proof. unfold remove. by intros ->. Qed.

Lemma pq_inv_remove n q : pq_inv q → pq_inv (remove n q).2.
Proof.
  intros Hq. destruct (entry_finder q !! n) as [e|] eqn:He;
    [rewrite (remove_Some _ _ _ He)|by rewrite (remove_None _ _ He)].
  destruct (inv_finder_live _ Hq _ _ He) as [Heh Hen].
  pose proof (inv_alloc _ Hq _ Heh) as Hel.
  split; simpl.
  - eapply is_heap_ext; [|apply Hq]. intros. by rewrite tombstone_entry_lt.
  - apply Hq.
  - intros a Ha. rewrite length_insert. by apply Hq.
  - intros a b Ha Hb. rewrite !tombstone_count. by apply Hq.
  - intros a Ha. rewrite tombstone_count. by apply Hq.
  - intros n' e' [Hne He']%lookup_delete_Some.
    destruct (inv_finder_live _ Hq _ _ He') as [? Hn']. split; [done|].
    rewrite tombstone_node by done. case_decide; [|done]. congruence.
  - intros n' e' He' Hn'. rewrite tombstone_node in Hn' by done.
    case_decide; [done|].
    pose proof (inv_live_finder _ Hq _ _ He' Hn') as Hf.
    rewrite lookup_delete_ne; [done|]. intros <-. congruence.
Qed.

Lemma contains_true n q : __contains__ n q = true ↔ is_Some (entry_finder q !! n).
Proof. unfold __contains__. by rewrite bool_decide_eq_true. Qed.

Lemma contains_false n q : __contains__ n q = false ↔ entry_finder q !! n = None.
Proof.
  unfold __contains__. by rewrite bool_decide_eq_false, eq_None_not_Some.
Qed.

Lemma push_unfold n p q :
  push n p q =
    (Ok tt, push_fresh n p (if __contains__ n q then (remove n q).2 else q)).
Proof.
  unfold push. destruct (__contains__ n q) eqn:Hc; [|done].
  apply contains_true in Hc as [e He]. by rewrite (remove_Some _ _ _ He).
Qed.

Lemma push_fresh_heap n p q :
  pq_inv q →
  heapq.is_heap (entry_lt (store (push_fresh n p q))) (heap (push_fresh n p q))
  ∧ heap (push_fresh n p q) ≡ₚ length (store q) :: heap q.
Proof.
  intros Hq. simpl.
  apply heappush_spec; [apply entry_lt_asym|apply entry_lt_negtrans|].
  eapply is_heap_ext; [|apply Hq]. intros x y Hx Hy.
  symmetry. apply alloc_entry_lt; by apply Hq.
Qed.

Lemma pq_inv_push_fresh n p q :
  pq_inv q → entry_finder q !! n = None → pq_inv (push_fresh n p q).
Proof.
  intros Hq Hn. destruct (push_fresh_heap n p q Hq) as [Hheap Hperm].
  assert (Hfresh : length (store q) ∉ heap q).
  { intros H%(inv_alloc _ Hq). lia. }
  assert (Hin : ∀ a, a ∈ heap (push_fresh n p q) ↔
                     a = length (store q) ∨ a ∈ heap q).
  { intros a. by rewrite Hperm, elem_of_cons. }
  set (x := {| priority := p; count := counter q; node := Live n |}).
  assert (Hnew : (store q ++ [x]) !!! length (store q) = x).
  { by rewrite lookup_total_app_r, Nat.sub_diag. }
  assert (Hold : ∀ a, a ∈ heap q → (store q ++ [x]) !!! a = store q !!! a).
  { intros a Ha%(inv_alloc _ Hq). by rewrite lookup_total_app_l. }
  subst x. split; cbn [store counter entry_finder push_fresh].
  - done.
  - rewrite Hperm. by constructor; [|apply Hq].
  - intros a [->|Ha%(inv_alloc _ Hq)]%Hin; rewrite length_app; simpl; lia.
  - intros a b [->|Ha]%Hin [->|Hb]%Hin; rewrite ?Hnew, ?Hold by done.
    + done.
    + pose proof (inv_count_lt _ Hq _ Hb). simpl. lia.
    + pose proof (inv_count_lt _ Hq _ Ha). simpl. lia.
    + by apply Hq.
  - intros a [->|Ha]%Hin; rewrite ?Hnew, ?Hold by done.
    + simpl. lia.
    + pose proof (inv_count_lt _ Hq _ Ha). lia.
  - intros n' e' [[<- <-]|[Hne He']]%lookup_insert_Some.
    + split; [apply Hin; by left|by rewrite Hnew].
    + destruct (inv_finder_live _ Hq _ _ He') as [? ?].
      split; [apply Hin; by right|by rewrite Hold].
  - intros n' e' [->|He']%Hin; rewrite ?Hnew, ?Hold by done.
    + intros [= <-]. by rewrite lookup_insert_eq.
    + intros Hn'. pose proof (inv_live_finder _ Hq _ _ He' Hn') as Hf.
      rewrite lookup_insert_ne; [done|]. intros <-. congruence.
Qed.

Lemma remove_finder n q : entry_finder (remove n q).2 !! n = None.
Proof.
  destruct (entry_finder q !! n) as [e|] eqn:He.
  - rewrite (remove_Some _ _ _ He). simpl. apply lookup_delete_eq.
  - by rewrite (remove_None _ _ He).
Qed.

Lemma pq_inv_push n p q : pq_inv q → pq_inv (push n p q).2.
Proof.
  intros Hq. rewrite push_unfold. simpl.
  destruct (__contains__ n q) eqn:Hc.
  - apply pq_inv_push_fresh; [by apply pq_inv_remove|apply remove_finder].
  - apply pq_inv_push_fresh; [done|by apply contains_false].
Qed.

(** The state after one [heappop] of a tombstone, and after one of a live
    entry. *)
Lemma heappop_inv q e h :
  pq_inv q → heapq.heappop (entry_lt (store q)) (heap q) = Some (e, h) →
  heap q !! 0 = Some e ∧ heap q ≡ₚ e :: h
  ∧ (∀ a, a ∈ heap q → entry_lt (store q) a e = false)
  ∧ match node (store q !!! e) with
    | REMOVED => pq_inv (set_heap h q)
    | Live n =>
        entry_finder q !! n = Some e ∧
        pq_inv {| store := store q; heap := h; counter := counter q;
                  entry_finder := delete n (entry_finder q) |}
    end.
Proof.
  intros Hq Hpop.
  destruct (heappop_spec _ (entry_lt_asym _) (entry_lt_negtrans _) _ _ _
              (inv_heap _ Hq) Hpop) as (H0 & Hperm & Hheap).
  assert (Hmin : ∀ a, a ∈ heap q → entry_lt (store q) a e = false).
  { intros a [i Hi]%list_elem_of_lookup.
    eapply (root_min _ (entry_lt_asym _) (entry_lt_negtrans _)); [|done..].
    apply Hq. }
  assert (Hnd : NoDup (e :: h)) by (rewrite <-Hperm; apply Hq).
  apply NoDup_cons in Hnd as [Heh Hnd].
  assert (Hin : ∀ a, a ∈ heap q ↔ a = e ∨ a ∈ h).
  { intros a. by rewrite Hperm, elem_of_cons. }
  split_and!; [done..|].
  destruct (node (store q !!! e)) as [n|] eqn:Hn.
  - assert (Hf : entry_finder q !! n = Some e).
    { apply (inv_live_finder _ Hq); [apply Hin; by left|done]. }
    split; [done|]. split; simpl; [done|done|..].
    + intros a Ha. apply Hq, Hin. by right.
    + intros a b Ha Hb. apply Hq; apply Hin; by right.
    + intros a Ha. apply Hq, Hin. by right.
    + intros n' e' [Hne He']%lookup_delete_Some.
      destruct (inv_finder_live _ Hq _ _ He') as [[->|?]%Hin Hn']; [|done].
      congruence.
    + intros n' e' He' Hn'.
      assert (entry_finder q !! n' = Some e') as Hf'.
      { apply (inv_live_finder _ Hq); [apply Hin; by right|done]. }
      rewrite lookup_delete_ne; [done|]. intros <-.
      assert (e' = e) by congruence. by subst.
  - split; simpl; [done|done|..].
    + intros a Ha. apply Hq, Hin. by right.
    + intros a b Ha Hb. apply Hq; apply Hin; by right.
    + intros a Ha. apply Hq, Hin. by right.
    + intros n' e' He'.
      destruct (inv_finder_live _ Hq _ _ He') as [[->|?]%Hin Hn']; [|done].
      congruence.
    + intros n' e' He' Hn'.
      apply (inv_live_finder _ Hq); [apply Hin; by right|done].
Qed.

Lemma entry_lt_total st a b :
  entry_lt st a b = false → count (st !!! a) ≠ count (st !!! b) →
  before st b a.
Proof. unfold entry_lt, before. simpl. lia. Qed.

Lemma is_live_true st e : is_live st e = true ↔ ∃ n, node (st !!! e) = Live n.
Proof.
  unfold is_live. destruct (node (st !!! e)) as [m|].
  - split; [eauto|done].
  - split; [done|]. by intros [? ?].
Qed.

Lemma is_live_false st e : is_live st e = false ↔ node (st !!! e) = REMOVED.
Proof. unfold is_live. by destruct (node (st !!! e)). Qed.

Lemma pop_loop_spec fuel q :
  pq_inv q → length (heap q) ≤ fuel →
  ∃ r q', pop_loop fuel q = Some (r, q') ∧ pq_inv q' ∧ pop_post q r q'.
Proof.
  revert q. induction fuel as [|fuel IH]; intros q Hq Hfuel.
  { destruct (heap q) eqn:Hh; [|simpl in Hfuel; lia].
    exists (Raise KeyError), q. simpl. rewrite Hh. unfold pop_post.
    split_and!; try done. rewrite Hh. set_solver. }
  simpl. destruct (heap q) as [|e0 h0] eqn:Hh.
  { exists (Raise KeyError), q. unfold pop_post.
    split_and!; try done. rewrite Hh. set_solver. }
  rewrite <-Hh.
  destruct (heapq.heappop (entry_lt (store q)) (heap q)) as [[e h]|] eqn:Hpop;
    last by (apply heappop_None in Hpop; congruence).
  destruct (heappop_inv q e h Hq Hpop) as (_ & Hperm & Hmin & Hcase).
  assert (Hnd : NoDup (e :: h)) by (rewrite <-Hperm; apply Hq).
  apply NoDup_cons in Hnd as [Heh Hnd].
  assert (Hin : ∀ a, a ∈ heap q ↔ a = e ∨ a ∈ h).
  { intros a. by rewrite Hperm, elem_of_cons. }
  cbn [store set_heap].
  destruct (node (store q !!! e)) as [n|] eqn:Hn.
  - destruct Hcase as [Hf Hq']. cbn [entry_finder set_heap]. rewrite Hf.
    eexists _, _. split; [done|]. split; [done|]. unfold pop_post.
    split_and!; cbn [store heap counter entry_finder set_heap]; try done.
    { intros a Ha. apply Hin. by right. }
    exists e. split_and!; try done.
    + apply Hin. by left.
    + intros a [->|Ha]%Hin; done.
    + intros a Ha [m Hm]%is_live_true Hne.
      apply entry_lt_total; [by apply Hmin|].
      intros Hc. apply Hne. apply (inv_count_inj _ Hq); [done| |done].
      apply Hin. by left.
  - destruct (IH (set_heap h q) Hcase) as (r & q' & Hloop & Hq' & Hpost).
    { apply Permutation_length in Hperm. rewrite Hh in Hperm.
      simpl in *. lia. }
    exists r, q'. split; [done|]. split; [done|]. unfold pop_post.
    destruct Hpost as (Hst & Hctr & Hsub & Hr).
    cbn [store heap counter entry_finder set_heap] in *.
    split_and!; try done.
    { intros a Ha. apply Hin. right. by apply Hsub. }
    destruct r as [n|x].
    + destruct Hr as (e' & He' & He'' & Hn' & Hf & Hf' & Hdead & Hbefore).
      exists e'. split_and!; try done.
      * apply Hin. by right.
      * intros a [->|Ha]%Hin Hne Hnot; [by apply is_live_false|by apply Hdead].
      * intros a [->|Ha]%Hin Hlive Hne; [|by apply Hbefore].
        apply is_live_true in Hlive as [m Hm]. congruence.
    + destruct Hr as (-> & Hemp & Hf & Hdead). split_and!; try done.
      intros a [->|Ha]%Hin; [by apply is_live_false|by apply Hdead].
Qed.

Lemma pop_spec q :
  pq_inv q → ∃ r q', pop q = Some (r, q') ∧ pq_inv q' ∧ pop_post q r q'.
Proof. intros Hq. by apply pop_loop_spec. Qed.

Lemma peek_loop_spec fuel q :
  pq_inv q → length (heap q) ≤ fuel →
  ∃ r q', peek_loop fuel q = Some (Ok r, q') ∧ pq_inv q' ∧ peek_post q r q'.
Proof.
  revert q. induction fuel as [|fuel IH]; intros q Hq Hfuel.
  { destruct (heap q) eqn:Hh; [|simpl in Hfuel; lia].
    exists None, q. simpl. rewrite Hh. unfold peek_post.
    split_and!; try done. }
  simpl. destruct (heap q) as [|e h0] eqn:Hh.
  { exists None, q. unfold peek_post. split_and!; try done. }
  rewrite <-Hh.
  assert (H0 : heap q !! 0 = Some e) by (by rewrite Hh).
  destruct (node (store q !!! e)) as [n|] eqn:Hn.
  - exists (Some n), q. unfold peek_post. split_and!; try done.
    exists e. split_and!; try done.
    intros a Ha [m Hm]%is_live_true Hne.
    assert (He : e ∈ heap q) by (by eapply list_elem_of_lookup_2).
    apply list_elem_of_lookup in Ha as [i Hi].
    apply entry_lt_total.
    + eapply (root_min _ (entry_lt_asym _) (entry_lt_negtrans _));
        [apply Hq|done..].
    + intros Hc. apply Hne. apply (inv_count_inj _ Hq); [|done..].
      by eapply list_elem_of_lookup_2.
  - destruct (heapq.heappop (entry_lt (store q)) (heap q)) as [[e' h]|] eqn:Hpop;
      last by (apply heappop_None in Hpop; congruence).
    destruct (heappop_inv q e' h Hq Hpop) as (H0' & Hperm & _ & Hcase).
    assert (e' = e) as -> by congruence. rewrite Hn in Hcase.
    assert (Hin : ∀ a, a ∈ heap q ↔ a = e ∨ a ∈ h).
    { intros a. by rewrite Hperm, elem_of_cons. }
    destruct (IH (set_heap h q) Hcase) as (r & q' & Hloop & Hq' & Hpost).
    { apply Permutation_length in Hperm. rewrite Hh in Hperm.
      simpl in *. lia. }
    exists r, q'. split; [done|]. split; [done|].
    destruct Hpost as (Hst & Hctr & Hf & Hsub & Hdead & Hr).
    cbn [store heap counter entry_finder set_heap] in *.
    unfold peek_post. split_and!; try done.
    + intros a Ha. apply Hin. right. by apply Hsub.
    + intros a [->|Ha]%Hin Hnot; [by apply is_live_false|by apply Hdead].
    + destruct r as [n|]; [|done].
      destruct Hr as (e' & He' & Hn' & Hbefore). exists e'.
      split_and!; try done.
      intros a [->|Ha]%Hin Hlive Hne; [|by apply Hbefore].
      apply is_live_true in Hlive as [m Hm]. congruence.
Qed.

Lemma peek_spec q :
  pq_inv q → ∃ r q', peek q = Some (Ok r, q') ∧ pq_inv q' ∧ peek_post q r q'.
Proof. intros Hq. by apply peek_loop_spec. Qed.

Lemma reachable_inv q : reachable q → pq_inv q.
Proof.
  induction 1 as [|n p q _ IH|n q _ IH|q r q' _ IH Hpop|q r q' _ IH Hpeek|q _ IH].
  - apply pq_inv_init.
  - by apply pq_inv_push.
  - by apply pq_inv_remove.
  - destruct (pop_spec q IH) as (r0 & q0 & Hpop' & Hq0 & _). congruence.
  - destruct (peek_spec q IH) as (r0 & q0 & Hpeek' & Hq0 & _). congruence.
  - apply pq_inv_clear.
Qed.

(** The index and the live entries of the heap are in bijection. *)
Lemma live_entries_size q :
  pq_inv q → length (live_entries q) = size (entry_finder q).
Proof.
  intros Hq.
  set (tag := λ e : loc,
    (match node (store q !!! e) with Live n => n | REMOVED => 0 end, e)).
  assert (Inj (=) (=) tag) by (by intros a b [= _ ->]).
  rewrite <-(length_fmap tag), <-length_map_to_list.
  apply Permutation_length, NoDup_Permutation.
  - apply (NoDup_fmap_2 tag), NoDup_filter, Hq.
  - apply NoDup_map_to_list.
  - intros [n e]. rewrite elem_of_map_to_list, list_elem_of_fmap. split.
    + intros (a & [= -> ->] & [Hlive Ha]%list_elem_of_filter).
      apply is_live_true in Hlive as [m Hm]. rewrite Hm.
      by apply (inv_live_finder _ Hq).
    + intros Hf. destruct (inv_finder_live _ Hq _ _ Hf) as [He Hn].
      exists e. unfold tag. rewrite Hn. split; [done|].
      apply list_elem_of_filter. split; [|done].
      apply is_live_true. eauto.
Qed.

Section filter_facts.
Context {A : Type} (P : A → Prop) `{∀ x, Decision (P x)}.

Lemma filter_none (l : list A) :
  (∀ x, x ∈ l → ¬ P x) ↔ filter P l = [].
Proof.
  split.
  - induction l as [|x l IH]; intros Hno; [done|].
    rewrite filter_cons, decide_False by (apply Hno; left).
    apply IH. intros y Hy. apply Hno. by right.
  - intros Hnil x Hx HP. by eapply filter_nil_not_elem_of.
Qed.

Lemma filter_unique (l : list A) (e : A) :
  NoDup l → e ∈ l → P e → (∀ x, x ∈ l → P x → x = e) → filter P l = [e].
Proof.
  induction 1 as [|x l Hx Hnd IH]; intros He HPe Huniq;
    [by apply elem_of_nil in He|].
  rewrite filter_cons. apply elem_of_cons in He as [<-|He].
  - rewrite decide_True by done. f_equal. apply filter_none.
    intros y Hy HPy. assert (y = e) as -> by (apply Huniq; [by right|done]).
    done.
  - assert (x ≠ e) by (by intros ->).
    rewrite decide_False by (intros HPx; apply Hx; rewrite (Huniq x) by (done || left); done).
    apply IH; [done..|]. intros y Hy. apply Huniq. by right.
Qed.
End filter_facts.


Lemma entries_of_Some n e q :
  pq_inv q → entry_finder q !! n = Some e → entries_of n q = [e].
Proof.
  intros Hq Hf. destruct (inv_finder_live _ Hq _ _ Hf) as [He Hn].
  apply filter_unique; [apply Hq|done..|].
  intros a Ha Hna. pose proof (inv_live_finder _ Hq _ _ Ha Hna). congruence.
Qed.

Lemma entries_of_None n q :
  pq_inv q → entry_finder q !! n = None → entries_of n q = [].
Proof.
  intros Hq Hf. apply filter_none. intros a Ha Hna.
  pose proof (inv_live_finder _ Hq _ _ Ha Hna). congruence.
Qed.

Lemma live_entries_nil q :
  live_entries q = [] ↔ ∀ a, a ∈ heap q → is_live (store q) a = false.
Proof.
  unfold live_entries. rewrite <-filter_none. split.
  - intros Hno a Ha. apply not_true_is_false. by apply Hno.
  - intros Hno a Ha. rewrite (Hno a Ha). done.
Qed.

Lemma pq_example_inv : pq_inv Fixtures.pq_example.
Proof. apply reachable_inv. repeat apply reach_push. apply reach_init. Qed.

(** C1.  Pushing a node that already has a live entry replaces that entry:
    [push] returns normally; afterwards the heap holds exactly one live
    entry for the node, that entry carries the priority just given and is
    the one [entry_finder] points to, the size is unchanged, and the
    node's previous entry is a different one, still in the heap, and
    tombstoned. *)
Theorem push_replaces_live_entry n (p : Z) q :
  pq_inv q → __contains__ n q = true →
  (push n p q).1 = Ok tt
  ∧ ∃ e, entries_of n (push n p q).2 = [e]
      ∧ priority (store (push n p q).2 !!! e) = p
      ∧ entry_finder (push n p q).2 !! n = Some e
      ∧ __len__ (push n p q).2 = __len__ q
      ∧ ∀ e0, entry_finder q !! n = Some e0 →
          e0 ≠ e ∧ e0 ∈ heap (push n p q).2
          ∧ node (store (push n p q).2 !!! e0) = REMOVED.
Proof.
  intros Hq Hc. pose proof (pq_inv_push n p q Hq) as Hq'.
  rewrite push_unfold in *. rewrite Hc in *. cbn [fst snd] in *.
  split; [done|].
  apply contains_true in Hc as [e0 He0].
  destruct (inv_finder_live _ Hq _ _ He0) as [He0h He0n].
  pose proof (inv_alloc _ Hq _ He0h) as He0l.
  pose proof (pq_inv_remove n q Hq) as Hq1.
  destruct (push_fresh_heap n p _ Hq1) as [_ Hperm].
  rewrite (remove_Some _ _ _ He0) in *. cbn [fst snd store heap] in *.
  rewrite length_insert in *.
  exists (length (store q)).
  assert (Hf : entry_finder (push_fresh n p
     {| store := <[e0:=tombstone (store q !!! e0)]> (store q);
        heap := heap q; counter := counter q;
        entry_finder := delete n (entry_finder q) |}) !! n = Some (length (store q))).
  { simpl. by rewrite length_insert, lookup_insert_eq. }
  split_and!.
  - by apply entries_of_Some.
  - simpl. rewrite lookup_total_app_r by (by rewrite length_insert).
    by rewrite length_insert, Nat.sub_diag.
  - done.
  - unfold __len__. simpl. rewrite insert_delete_eq.
    by apply map_size_insert_Some.
  - intros e1 He1. assert (e1 = e0) as -> by congruence.
    split_and!; [lia| |].
    + rewrite Hperm. by right.
    + simpl. rewrite lookup_total_app_l by (by rewrite length_insert).
      by rewrite list_lookup_total_insert_eq.
Qed.

Lemma push_replaces_live_entry_witness :
  (push 7 9 Fixtures.pq_example).1 = Ok tt
  ∧ ∃ e, entries_of 7 (push 7 9 Fixtures.pq_example).2 = [e]
      ∧ priority (store (push 7 9 Fixtures.pq_example).2 !!! e) = 9%Z
      ∧ entry_finder (push 7 9 Fixtures.pq_example).2 !! 7 = Some e
      ∧ __len__ (push 7 9 Fixtures.pq_example).2 = __len__ Fixtures.pq_example
      ∧ ∀ e0, entry_finder Fixtures.pq_example !! 7 = Some e0 →
          e0 ≠ e ∧ e0 ∈ heap (push 7 9 Fixtures.pq_example).2
          ∧ node (store (push 7 9 Fixtures.pq_example).2 !!! e0) = REMOVED.
Proof.
  apply (push_replaces_live_entry 7 9 Fixtures.pq_example).
  - apply pq_example_inv.
  - vm_compute. reflexivity.
Defined.




(** C3.  [__len__], [is_empty] and [__contains__] speak of live entries
    only: the size is the number of live heap entries, the queue is empty
    exactly when no heap entry is live, and a node is a member exactly
    when a live heap entry carries it.  After [remove n] of a member, [n]
    is no longer a member and the size is one less, while the heap is the
    very same list and still holds the entry, now tombstoned. *)
Theorem queries_count_live_only q :
  pq_inv q →
  __len__ q = length (live_entries q)
  ∧ (is_empty q = true ↔ live_entries q = [])
  ∧ (∀ n, __contains__ n q = true ↔
          ∃ e, e ∈ live_entries q ∧ node (store q !!! e) = Live n)
  ∧ ∀ n, __contains__ n q = true →
      (remove n q).1 = Ok tt
      ∧ __contains__ n (remove n q).2 = false
      ∧ S (__len__ (remove n q).2) = __len__ q
      ∧ is_empty (remove n q).2 = (__len__ q =? 1)
      ∧ heap (remove n q).2 = heap q
      ∧ ∃ e, entry_finder q !! n = Some e ∧ e ∈ heap (remove n q).2
           ∧ node (store (remove n q).2 !!! e) = REMOVED
           ∧ (e ∉ live_entries (remove n q).2).
Proof.
  intros Hq. pose proof (live_entries_size q Hq) as Hsize.
  split_and!.
  - done.
  - unfold is_empty, __len__. rewrite <-Hsize, Nat.eqb_eq.
    apply length_zero_iff_nil.
  - intros n. rewrite contains_true. split.
    + intros [e He]. destruct (inv_finder_live _ Hq _ _ He) as [Hh Hn].
      exists e. split; [|done]. apply list_elem_of_filter. split; [|done].
      apply is_live_true. eauto.
    + intros (e & [_ Hh]%list_elem_of_filter & Hn). exists e.
      by apply (inv_live_finder _ Hq).
  - intros n [e He]%contains_true.
    destruct (inv_finder_live _ Hq _ _ He) as [Hh Hn].
    pose proof (inv_alloc _ Hq _ Hh) as Hl.
    rewrite (remove_Some _ _ _ He). cbn [fst snd].
    assert (Hlen : S (size (delete n (entry_finder q))) = size (entry_finder q)).
    { rewrite map_size_delete_Some by eauto.
      assert (size (entry_finder q) ≠ 0); [|lia].
      intros Hz%map_size_empty_inv. rewrite Hz in He. by rewrite lookup_empty in He. }
    split_and!; try done.
    + apply contains_false. simpl. apply lookup_delete_eq.
    + unfold is_empty, __len__ in *. simpl. lia.
    + exists e. simpl. split_and!; try done.
      * by rewrite list_lookup_total_insert_eq.
      * intros [Hlive _]%list_elem_of_filter. simpl in Hlive.
        apply is_live_true in Hlive as [m Hm].
        by rewrite list_lookup_total_insert_eq in Hm.
Qed.

Lemma queries_count_live_only_witness :
  __len__ Fixtures.pq_example = length (live_entries Fixtures.pq_example)
  ∧ (is_empty Fixtures.pq_example = true ↔ live_entries Fixtures.pq_example = [])
  ∧ (∀ n, __contains__ n Fixtures.pq_example = true ↔
          ∃ e, e ∈ live_entries Fixtures.pq_example
               ∧ node (store Fixtures.pq_example !!! e) = Live n)
  ∧ ∀ n, __contains__ n Fixtures.pq_example = true →
      (remove n Fixtures.pq_example).1 = Ok tt
      ∧ __contains__ n (remove n Fixtures.pq_example).2 = false
      ∧ S (__len__ (remove n Fixtures.pq_example).2) = __len__ Fixtures.pq_example
      ∧ is_empty (remove n Fixtures.pq_example).2 = (__len__ Fixtures.pq_example =? 1)
      ∧ heap (remove n Fixtures.pq_example).2 = heap Fixtures.pq_example
      ∧ ∃ e, entry_finder Fixtures.pq_example !! n = Some e
           ∧ e ∈ heap (remove n Fixtures.pq_example).2
           ∧ node (store (remove n Fixtures.pq_example).2 !!! e) = REMOVED
           ∧ (e ∉ live_entries (remove n Fixtures.pq_example).2).
Proof.
  apply (queries_count_live_only Fixtures.pq_example). apply pq_example_inv.
Defined.

(** C9.  In a well-formed queue [entry_finder] maps each queued node to an
    entry of the heap that is live, carries that node and is the only such
    entry; a node that is not queued has no live entry; and the live heap
    entries are as many as the keys of [entry_finder].  [push], [remove],
    [pop] and [clear] lead from well-formed queues to well-formed queues
    ([__init__] is one: [pq_inv_init]). *)
Theorem index_heap_invariant q :
  pq_inv q →
  ((∀ n e, entry_finder q !! n = Some e →
      e ∈ heap q ∧ node (store q !!! e) = Live n ∧ entries_of n q = [e])
   ∧ (∀ n, entry_finder q !! n = None → entries_of n q = [])
   ∧ length (live_entries q) = size (entry_finder q))
  ∧ (∀ n p, pq_inv (push n p q).2)
  ∧ (∀ n, pq_inv (remove n q).2)
  ∧ (∃ r q', pop q = Some (r, q') ∧ pq_inv q')
  ∧ (∃ r q', peek q = Some (r, q') ∧ pq_inv q')
  ∧ pq_inv (clear q).
Proof.
  intros Hq. split_and!.
  - intros n e He. destruct (inv_finder_live _ Hq _ _ He) as [? ?].
    split_and!; [done..|]. by apply entries_of_Some.
  - intros n. by apply entries_of_None.
  - by apply live_entries_size.
  - intros n p. by apply pq_inv_push.
  - intros n. by apply pq_inv_remove.
  - destruct (pop_spec q Hq) as (r & q' & ? & ? & _). eauto.
  - destruct (peek_spec q Hq) as (r & q' & ? & ? & _). eauto.
  - apply pq_inv_clear.
Qed.

Lemma index_heap_invariant_witness :
  ((∀ n e, entry_finder Fixtures.pq_example !! n = Some e →
      e ∈ heap Fixtures.pq_example
      ∧ node (store Fixtures.pq_example !!! e) = Live n
      ∧ entries_of n Fixtures.pq_example = [e])
   ∧ (∀ n, entry_finder Fixtures.pq_example !! n = None →
        entries_of n Fixtures.pq_example = [])
   ∧ length (live_entries Fixtures.pq_example) =
       size (entry_finder Fixtures.pq_example))
  ∧ (∀ n p, pq_inv (push n p Fixtures.pq_example).2)
  ∧ (∀ n, pq_inv (remove n Fixtures.pq_example).2)
  ∧ (∃ r q', pop Fixtures.pq_example = Some (r, q') ∧ pq_inv q')
  ∧ (∃ r q', peek Fixtures.pq_example = Some (r, q') ∧ pq_inv q')
  ∧ pq_inv (clear Fixtures.pq_example).
Proof.
  apply (index_heap_invariant Fixtures.pq_example). apply pq_example_inv.
Defined.




(** C10.  On an empty structure [pop] raises and [peek] returns [None]:
    [IndexError] from [Queue.pop] and [Stack.pop], [KeyError] from
    [PriorityQueue.pop] once no live entry is left (tombstones may still be
    in the heap), and [None] from the three [peek]s. *)
Theorem empty_pop_raises_peek_none {A}
    (qu : Queue.t A) (s : Stack.t A) (q : PriorityQueue.t) :
  Queue.items qu = [] → Stack.items s = [] →
  pq_inv q → live_entries q = [] →
  Queue.pop qu = (Raise IndexError, qu) ∧ Queue.peek qu = Ok None
  ∧ Stack.pop s = (Raise IndexError, s) ∧ Stack.peek s = Ok None
  ∧ (∃ q', pop q = Some (Raise KeyError, q'))
  ∧ (∃ q', peek q = Some (Ok None, q')).
Proof.
  intros Hqu Hs Hq Hlive.
  unfold Queue.pop, Queue.peek, Queue.is_empty, Stack.pop, Stack.peek,
    Stack.is_empty. rewrite Hqu, Hs. simpl. split_and!; try done.
  - destruct (pop_spec q Hq) as (r & q' & Hpop & _ & _ & _ & _ & Hr).
    destruct r as [n|x].
    + destruct Hr as (e & He & _ & Hn & _). exfalso.
      eapply (filter_nil_not_elem_of _ _ e); [exact Hlive| |done].
      simpl. apply is_live_true. eauto.
    + destruct Hr as (-> & _). eauto.
  - destruct (peek_spec q Hq) as (r & q' & Hpeek & _ & _ & _ & _ & Hsub & _ & Hr).
    destruct r as [n|]; [|eauto].
    destruct Hr as (e & He & Hn & _). exfalso.
    eapply (filter_nil_not_elem_of _ _ e); [exact Hlive| |].
    + simpl. apply is_live_true. eauto.
    + eapply Hsub, list_elem_of_lookup_2, He.
Qed.

Lemma empty_pop_raises_peek_none_witness :
  Queue.pop (@Queue.__init__ nat) = (Raise IndexError, Queue.__init__)
  ∧ Queue.peek (@Queue.__init__ nat) = Ok None
  ∧ Stack.pop (@Stack.__init__ nat) = (Raise IndexError, Stack.__init__)
  ∧ Stack.peek (@Stack.__init__ nat) = Ok None
  ∧ (∃ q', pop (remove 3 (push 3 1 __init__).2).2 = Some (Raise KeyError, q'))
  ∧ (∃ q', peek (remove 3 (push 3 1 __init__).2).2 = Some (Ok None, q')).
Proof.
  apply (empty_pop_raises_peek_none Queue.__init__ Stack.__init__
           (remove 3 (push 3 1 __init__).2).2).
  - reflexivity.
  - reflexivity.
  - apply reachable_inv, reach_remove, reach_push, reach_init.
  - vm_compute. reflexivity.
Defined.

End PriorityQueue_facts.

(** ** Queue and stack *)

Section fifo_lifo.
Context {A : Type}.

Lemma Queue_items_push_all xs (q : Queue.t A) :
  Queue.items (Queue.push_all xs q) = Queue.items q ++ xs.
Proof.
  revert q. induction xs as [|x xs IH]; intros q; simpl.
  - by rewrite app_nil_r.
  - rewrite IH. simpl. by rewrite <-app_assoc.
Qed.

Lemma Stack_items_push_all xs (s : Stack.t A) :
  Stack.items (Stack.push_all xs s) = Stack.items s ++ xs.
Proof.
  revert s. induction xs as [|x xs IH]; intros s; simpl.
  - by rewrite app_nil_r.
  - rewrite IH. simpl. by rewrite <-app_assoc.
Qed.

Lemma Queue_pop_cons (q : Queue.t A) x rest :
  Queue.items q = x :: rest →
  Queue.pop q = (Ok x, {| Queue.items := rest |}).
Proof. unfold Queue.pop, Queue.is_empty. by intros ->. Qed.

Lemma Stack_pop_snoc (s : Stack.t A) front x :
  Stack.items s = front ++ [x] →
  Stack.pop s = (Ok x, {| Stack.items := front |}).
Proof.
  unfold Stack.pop, Stack.is_empty. intros ->.
  rewrite length_app, last_snoc, removelast_last. simpl.
  by replace (length front + 1 =? 0) with false by lia.
Qed.

Lemma Queue_run_fifo (ops : list (Queue.op A)) (q : Queue.t A) :
  Queue.items q ++ Queue.pushed ops =
    (Queue.run ops q).1 ++ Queue.items (Queue.run ops q).2.
Proof.
  revert q. induction ops as [|[x|] ops IH]; intros q; simpl.
  - by rewrite app_nil_r.
  - rewrite <-IH. simpl. by rewrite <-app_assoc.
  - destruct (Queue.items q) as [|y rest] eqn:Hq.
    + unfold Queue.pop, Queue.is_empty. rewrite Hq. simpl.
      rewrite <-IH. by rewrite Hq.
    + rewrite (Queue_pop_cons q y rest Hq).
      specialize (IH {| Queue.items := rest |}).
      destruct (Queue.run ops {| Queue.items := rest |}) as [out q'].
      simpl in *. by rewrite IH.
Qed.

(** C7.  [pop] returns the earliest-pushed item still in the queue: after
    any pushes [xs] onto any queue, [pop] returns the first item of the old
    contents followed by [xs] and leaves the rest (or raises if there is
    none); from the empty queue, the first item pushed comes out first; and
    through any sequence of pushes and pops, the items come out in the
    order they went in. *)
Theorem queue_pop_is_fifo (q : Queue.t A) (xs : list A) :
  Queue.pop (Queue.push_all xs q) =
    match Queue.items q ++ xs with
    | [] => (Raise IndexError, Queue.push_all xs q)
    | first :: rest => (Ok first, {| Queue.items := rest |})
    end
  ∧ (∀ x, Queue.pop (Queue.push_all (x :: xs) Queue.__init__) =
            (Ok x, Queue.push_all xs Queue.__init__))
  ∧ ∀ ops, Queue.items q ++ Queue.pushed ops =
             (Queue.run ops q).1 ++ Queue.items (Queue.run ops q).2.
Proof.
  split_and!.
  - pose proof (Queue_items_push_all xs q) as Hi.
    destruct (Queue.items q ++ xs) as [|y r] eqn:E.
    + unfold Queue.pop, Queue.is_empty. by rewrite Hi.
    + by apply Queue_pop_cons.
  - intros x. erewrite Queue_pop_cons.
    + f_equal. destruct (Queue.push_all xs Queue.__init__) as [its] eqn:E.
      f_equal. apply (f_equal Queue.items) in E.
      rewrite Queue_items_push_all in E. simpl in E. by rewrite <-E.
    + by rewrite Queue_items_push_all.
  - intros ops. apply Queue_run_fifo.
Qed.

(** C8.  [pop] returns the most recently pushed item still in the stack:
    after any pushes onto any stack, the last of them being [x], [pop]
    returns [x] and leaves the stack as it was before [x] was pushed. *)
Theorem stack_pop_is_lifo (s : Stack.t A) (xs : list A) (x : A) :
  Stack.pop (Stack.push_all (xs ++ [x]) s) = (Ok x, Stack.push_all xs s)
  ∧ Stack.pop (Stack.push x s) = (Ok x, s).
Proof.
  split.
  - erewrite Stack_pop_snoc.
    + f_equal. destruct (Stack.push_all xs s) as [its] eqn:E. f_equal.
      apply (f_equal Stack.items) in E. by rewrite Stack_items_push_all in E.
    + by rewrite Stack_items_push_all, app_assoc.
  - erewrite Stack_pop_snoc; [|done]. by destruct s.
Qed.
End fifo_lifo.

(** ** Search execution *)

Section gv_facts.
Import GraphVisualizer.
Context {number : Type} {SA : SearchAgentClass number}.
Implicit Types (gv : t number SA) (gen : Gen SA) (agent : SearchAgent number)
  (ns : gmap nat string).

Lemma capture_search_state_Some gv agent :
  search_agent gv = Some agent →
  capture_search_state gv = Ok (snapshot_of agent (nodes gv)).
Proof. unfold capture_search_state. by intros ->. Qed.

(** The [for] loop, for a generator that ends after [k] yields. *)
Lemma collect_spec fuel : ∀ k gen gv agent genk agentk nsk,
  search_agent gv = Some agent →
  after_yields SA k gen agent (nodes gv) = Some (genk, agentk, nsk) →
  (∀ g' a' n', resume SA genk agentk nsk ≠ Yield g' a' n') →
  k < fuel →
  ∃ r gv' new_states,
    collect fuel gen gv = Some (r, gv')
    ∧ animation_states gv' = animation_states gv ++ new_states
    ∧ length new_states = k
    ∧ search_generator gv' = Exhausted
    ∧ (∀ i, i < k → ∃ gi ai ni,
         after_yields SA (S i) gen agent (nodes gv) = Some (gi, ai, ni)
         ∧ new_states !! i = Some (snapshot_of ai ni))
    ∧ match resume SA genk agentk nsk with
      | StopIteration a' n' =>
          r = Ok tt ∧ search_agent gv' = Some a' ∧ nodes gv' = n'
      | GenRaise e a' n' =>
          r = Raise e ∧ search_agent gv' = Some a' ∧ nodes gv' = n'
      | Yield _ _ _ => False
      end.
Proof.
  induction fuel as [|fuel IH]; intros k gen gv agent genk agentk nsk
    Hagent Hk Hend Hfuel; [lia|].
  simpl. rewrite Hagent. destruct k as [|k].
  - simpl in Hk. injection Hk as Hg Ha Hn. subst genk agentk nsk.
    destruct (resume SA gen agent (nodes gv)) as [g' a' n'|a' n'|e a' n'] eqn:Hr.
    + by destruct (Hend g' a' n').
    + eexists _, _, []. rewrite app_nil_r.
      split_and!; try done. intros i Hi. lia.
    + eexists _, _, []. rewrite app_nil_r.
      split_and!; try done. intros i Hi. lia.
  - simpl in Hk.
    destruct (resume SA gen agent (nodes gv)) as [g1 a1 n1| |] eqn:Hr; [|done..].
    destruct (IH k g1
      (set_animation
         (animation_states gv ++ [snapshot_of a1 n1])
         (current_state_index gv) (is_animating gv) (is_paused gv)
         (set_nodes n1 (set_search (Some a1) (Generator g1) gv)))
      a1 genk agentk nsk) as (r & gv' & new_states & Hc & Hs & Hl & Hg & Hi & He);
      [done|done|done|lia|].
    cbn [capture_search_state search_agent set_nodes set_search nodes
         animation_states current_state_index is_animating is_paused
         set_animation] in *.
    exists r, gv', (snapshot_of a1 n1 :: new_states).
    split_and!; try done.
    + rewrite Hs, <-app_assoc. done.
    + simpl. by rewrite Hl.
    + intros [|i] Hlt.
      * by exists g1, a1, n1.
      * destruct (Hi i) as (gi & ai & ni & Hy & Hlook); [lia|].
        exists gi, ai, ni. split; [|done].
        done.
Qed.
(** Showing a recorded state changes what is displayed and the node states,
    not the recording, the agent or the generator. *)
Lemma restore_search_state_keeps state gv :
  animation_states (restore_search_state state gv).2 = animation_states gv
  ∧ search_agent (restore_search_state state gv).2 = search_agent gv
  ∧ search_generator (restore_search_state state gv).2 = search_generator gv
  ∧ current_state_index (restore_search_state state gv).2 =
      current_state_index gv
  ∧ recording_gif (restore_search_state state gv).2 = recording_gif gv
  ∧ animation_speed (restore_search_state state gv).2 = animation_speed gv.
Proof.
  unfold restore_search_state.
  repeat (match goal with
          | |- context [match ?x with Ok _ => _ | Raise _ => _ end] =>
              destruct x
          end; simpl; try done).
Qed.

Lemma animate_next_step_keeps gv :
  animation_states (animate_next_step gv).2 = animation_states gv
  ∧ search_agent (animate_next_step gv).2 = search_agent gv
  ∧ search_generator (animate_next_step gv).2 = search_generator gv.
Proof.
  unfold animate_next_step.
  destruct (negb (is_animating gv) || is_paused gv); [done|].
  destruct (current_state_index gv <? _)%Z; last first.
  { unfold animation_complete, update_search_results. simpl.
    destruct (search_agent gv) eqn:Ha; simpl;
      destruct (recording_gif gv); simpl; split_and!; done. }
  cbn [animation_states set_animation].
  destruct (getitem _ _) as [state|]; [|done].
  set (gv1 := set_animation _ _ _ _ gv).
  destruct (restore_search_state_keeps state gv1) as (H1 & H2 & H3 & _).
  destruct (restore_search_state state gv1) as [[u|e] gv2]; simpl in *;
    [|done].
  destruct (recording_gif gv2), (animation_speed _ =? 0)%Z; simpl; done.
Qed.

(** [start_search] on a graph with a source and a goal, for a generator
    that ends after [k] yields: the generator is run to its end and one
    state per step is recorded before [animate_next_step] shows the first
    of them. *)
Lemma start_search_records_every_step fuel k doc gv source goal goals
    gen genk agentk agent' nsk ns' :
  size (nodes gv) ≠ 0 →
  source_node gv = Some source →
  goal_nodes gv = goal :: goals →
  select_generator SA doc = Ok (Some gen) →
  after_yields SA k gen
    (new SA (nodes (clear_path (stop_search gv))) source goal)
    (nodes (clear_path (stop_search gv))) = Some (genk, agentk, nsk) →
  resume SA genk agentk nsk = StopIteration agent' ns' →
  k < fuel →
  ∃ r gv',
    start_search fuel doc gv = Some (r, gv')
    ∧ search_generator gv' = Exhausted
    ∧ search_agent gv' = Some agent'
    ∧ length (animation_states gv') = k
    ∧ ∀ i, i < k → ∃ gi ai ni,
        after_yields SA (S i) gen
          (new SA (nodes (clear_path (stop_search gv))) source goal)
          (nodes (clear_path (stop_search gv))) = Some (gi, ai, ni)
        ∧ animation_states gv' !! i = Some (snapshot_of ai ni).
Proof.
  intros Hsize Hsource Hgoal Hsel Hk Hstop Hfuel. unfold start_search.
  destruct (Nat.eqb_spec (size (nodes gv)) 0) as [|_]; [done|].
  rewrite Hsource, Hgoal, Hsel.
  set (gv0 := clear_path (stop_search gv)) in *.
  set (agent := new SA (nodes gv0) source goal) in *.
  cbn [search_generator search_agent set_search set_animation is_animating
       is_paused].
  set (gv1 := set_animation [] (-1) _ _ _).
  destruct (collect_spec fuel k gen gv1 agent genk agentk nsk)
    as (r & gv2 & new_states & Hc & Hs & Hl & Hg & Hi & He);
    [done|done| |done|].
  { intros g' a' n'. by rewrite Hstop. }
  rewrite Hstop in He. destruct He as (-> & Ha & Hn). rewrite Hc.
  set (gv3 := emit _ (set_animation _ (-1) true false gv2)).
  destruct (animate_next_step_keeps gv3) as (H1 & H2 & H3).
  destruct (animate_next_step gv3) as [r gv4]. simpl in *.
  exists r, gv4. split; [done|].
  rewrite H1, H2, H3, Hs. by split_and!.
Qed.

End gv_facts.

Section GraphVisualizer_claims.
Import GraphVisualizer Fixtures.




(** C5 as stated does not hold: the captured state of a started search has
    six fields; [success] and [nodes_explored] are not among them, and
    [node_states] is. *)
Lemma captured_state_lacks_success_and_nodes_explored :
  ∃ state,
    capture_search_state line_started = Ok state
    ∧ ("success"%string ∉ state.*1)
    ∧ ("nodes_explored"%string ∉ state.*1)
    ∧ "node_states"%string ∈ state.*1
    ∧ length state = 6.
Proof.
  eexists. split; [reflexivity|]. simpl.
  split_and!; [| | |done].
  - intros H. repeat (apply elem_of_cons in H as [H|H]; [discriminate H|]).
    by apply elem_of_nil in H.
  - intros H. repeat (apply elem_of_cons in H as [H|H]; [discriminate H|]).
    by apply elem_of_nil in H.
  - do 4 right. left.
Qed.

(** C5, amended.  The state captured after a step has exactly the fields
    [fringe], [visited], [traversal], [path], [node_states] and
    [current_info], holding copies of the agent's lists, the node states
    and the agent's g/h/f record; whether the search succeeded and how many
    nodes it explored are read from the agent itself when the results are
    shown. *)
Theorem captured_state_fields
    {number : Type} (SA : SearchAgentClass number) (gv : t number SA)
    (agent : SearchAgent number) :
  search_agent gv = Some agent →
  ∃ state,
    capture_search_state gv = Ok state
    ∧ state.*1 = ["fringe"; "visited"; "traversal"; "path"; "node_states";
                  "current_info"]%string
    ∧ state.*2 = [VList (fringe_list agent); VList (visited_list agent);
                  VList (traversal_array agent); VList (path_found agent);
                  VStates (nodes gv); VInfo (current_node_info agent)]
    ∧ effects (update_search_results gv) =
        effects gv ++
        [ShowResults
           (if success agent
            then Some (path_cost agent, length (path_found agent)) else None)
           (nodes_explored agent) (length (animation_states gv))].
Proof.
  intros Hagent. exists (snapshot_of agent (nodes gv)).
  unfold capture_search_state, update_search_results. rewrite Hagent.
  split_and!; reflexivity.
Qed.

Lemma captured_state_fields_witness :
  ∃ state,
    capture_search_state line_started = Ok state
    ∧ state.*1 = ["fringe"; "visited"; "traversal"; "path"; "node_states";
                  "current_info"]%string
    ∧ state.*2 = [VList [0]; VList []; VList []; VList [];
                  VStates (nodes line_started);
                  VInfo {| g := 0%Z; h := 0%Z; f := 0%Z |}]
    ∧ effects (update_search_results line_started) =
        effects line_started ++ [ShowResults None 0 0].
Proof.
  apply (captured_state_fields (line_walk 2) line_started (line_agent 0 2)).
  reflexivity.
Defined.

(** C6 as stated does not hold: started on a graph without a source,
    [start_search] tells the user and returns normally; it raises nothing. *)
Lemma start_search_without_source_returns_normally :
  source_node no_source_graph = None
  ∧ start_search 10 bfs_selected no_source_graph =
      Some (Ok tt, emit [Alert "Please set a source node"] no_source_graph)
  ∧ ∀ e gv', start_search 10 bfs_selected no_source_graph ≠ Some (Raise e, gv').
Proof. split_and!; [reflexivity|reflexivity|]. intros e gv'. discriminate. Qed.

(** C6, amended.  When the graph has no nodes, no source is set or no goal
    is set, [start_search] alerts the user and returns normally before an
    agent or a generator is made: apart from the alert the state is as it
    was, so no step is taken and no state is recorded. *)
Theorem unset_source_or_goal_alerts_before_any_step
    {number : Type} (SA : SearchAgentClass number) (fuel : nat)
    (doc : Document) (gv : t number SA) :
  size (nodes gv) = 0 ∨ source_node gv = None ∨ goal_nodes gv = [] →
  ∃ msg gv',
    start_search fuel doc gv = Some (Ok tt, gv')
    ∧ gv' = emit [Alert msg] gv
    ∧ search_agent gv' = search_agent gv
    ∧ search_generator gv' = search_generator gv
    ∧ animation_states gv' = animation_states gv
    ∧ nodes gv' = nodes gv.
Proof.
  intros Hinvalid. unfold start_search.
  destruct (Nat.eqb_spec (size (nodes gv)) 0) as [Hz|Hnz].
  { eexists _, _. split_and!; reflexivity. }
  destruct (source_node gv) as [source|].
  2: { eexists _, _. split_and!; reflexivity. }
  destruct (goal_nodes gv) as [|goal goals].
  { eexists _, _. split_and!; reflexivity. }
  by destruct Hinvalid as [?|[?|?]].
Qed.

Lemma unset_source_or_goal_alerts_before_any_step_witness :
  ∃ msg gv',
    start_search 10 bfs_selected no_source_graph = Some (Ok tt, gv')
    ∧ gv' = emit [Alert msg] no_source_graph
    ∧ search_agent gv' = search_agent no_source_graph
    ∧ search_generator gv' = search_generator no_source_graph
    ∧ animation_states gv' = animation_states no_source_graph
    ∧ nodes gv' = nodes no_source_graph.
Proof.
  apply (unset_source_or_goal_alerts_before_any_step (line_walk 2) 10
           bfs_selected no_source_graph).
  right. left. reflexivity.
Defined.

End GraphVisualizer_claims.

(** ** More about the priority queue *)

Section PriorityQueue_more.
Import PriorityQueue.
Implicit Types (st : list entry) (a b c e : nat) (n m : nat) (q : t).

Lemma len_contains_push_fresh n (p : Z) q :
  entry_finder q !! n = None →
  __len__ (push_fresh n p q) = S (__len__ q).
Proof. intros Hn. unfold __len__. simpl. by apply map_size_insert_None. Qed.

(** X1.  [push] of a node that is not queued returns normally and queues
    it: the node is a member afterwards, the size grows by one, the heap
    holds exactly one entry for it, a new one with the given priority, and
    the entries of all other nodes are as they were. *)
Theorem push_new_node n (p : Z) q :
  pq_inv q → __contains__ n q = false →
  (push n p q).1 = Ok tt
  ∧ __contains__ n (push n p q).2 = true
  ∧ __len__ (push n p q).2 = S (__len__ q)
  ∧ (∃ e, entries_of n (push n p q).2 = [e]
        ∧ priority (store (push n p q).2 !!! e) = p
        ∧ (e ∉ heap q))
  ∧ ∀ m, m ≠ n →
      entry_finder (push n p q).2 !! m = entry_finder q !! m
      ∧ ∀ e, entry_finder q !! m = Some e →
          store (push n p q).2 !!! e = store q !!! e.
Proof.
  intros Hq Hc. pose proof (pq_inv_push n p q Hq) as Hq'.
  rewrite push_unfold in *. rewrite Hc in *. cbn [fst snd] in *.
  apply contains_false in Hc.
  assert (Hf : entry_finder (push_fresh n p q) !! n = Some (length (store q))).
  { simpl. by rewrite lookup_insert_eq. }
  split_and!.
  - done.
  - apply contains_true. eauto.
  - by apply len_contains_push_fresh.
  - exists (length (store q)). split_and!.
    + by apply entries_of_Some.
    + simpl. by rewrite lookup_total_app_r, Nat.sub_diag.
    + intros H%(inv_alloc _ Hq). lia.
  - intros m Hm. split.
    + simpl. by rewrite lookup_insert_ne.
    + intros e He. destruct (inv_finder_live _ Hq _ _ He) as [Hh _].
      apply (inv_alloc _ Hq) in Hh. simpl. by rewrite lookup_total_app_l.
Qed.

(** X2.  [remove] of a node that is not queued raises [KeyError] and
    changes nothing.  [remove n] leaves the entries of all other nodes as
    they were, and no later [pop] returns [n]. *)
Theorem remove_touches_one_node n q :
  pq_inv q →
  (∀ k, __contains__ k q = false → remove k q = (Raise KeyError, q))
  ∧ (∀ m, m ≠ n →
       entry_finder (remove n q).2 !! m = entry_finder q !! m
       ∧ ∀ e, entry_finder q !! m = Some e →
           store (remove n q).2 !!! e = store q !!! e)
  ∧ ∀ m q', pop (remove n q).2 = Some (Ok m, q') → m ≠ n.
Proof.
  intros Hq. split_and!.
  - intros k Hc%contains_false. by apply remove_None.
  - intros m Hm. destruct (entry_finder q !! n) as [e0|] eqn:He0;
      [rewrite (remove_Some _ _ _ He0)|by rewrite (remove_None _ _ He0)].
    simpl. split; [by rewrite lookup_delete_ne|].
    intros e He. rewrite list_lookup_total_insert_ne; [done|].
    intros <-. destruct (inv_finder_live _ Hq _ _ He0) as [_ H0].
    destruct (inv_finder_live _ Hq _ _ He) as [_ H1]. congruence.
  - intros m q' Hpop ->.
    pose proof (pq_inv_remove n q Hq) as Hq1.
    destruct (pop_spec _ Hq1) as (r & q2 & Hpop' & _ & _ & _ & _ & Hr).
    rewrite Hpop in Hpop'. injection Hpop' as <- <-.
    destruct Hr as (e & _ & _ & _ & Hf & _).
    by rewrite remove_finder in Hf.
Qed.

(** X3.  A [pop] that returns [n] takes out just that node: [n] was a
    member and is none afterwards, the size is one less, no entry is
    rewritten and every other node keeps its entry. *)
Theorem pop_takes_out_one_node q n q' :
  pq_inv q → pop q = Some (Ok n, q') →
  __contains__ n q = true
  ∧ __contains__ n q' = false
  ∧ S (__len__ q') = __len__ q
  ∧ store q' = store q
  ∧ ∀ m, m ≠ n → entry_finder q' !! m = entry_finder q !! m.
Proof.
  intros Hq Hpop.
  destruct (pop_spec _ Hq) as (r & q2 & Hpop' & _ & Hst & _ & _ & Hr).
  rewrite Hpop in Hpop'. injection Hpop' as <- <-.
  destruct Hr as (e & _ & _ & _ & Hf & Hf' & _).
  split_and!.
  - apply contains_true. eauto.
  - apply contains_false. rewrite Hf'. apply lookup_delete_eq.
  - unfold __len__. rewrite Hf', map_size_delete_Some by eauto.
    assert (size (entry_finder q) ≠ 0); [|lia].
    intros Hz%map_size_empty_inv. rewrite Hz in Hf. by rewrite lookup_empty in Hf.
  - done.
  - intros m Hm. rewrite Hf'. by apply lookup_delete_ne.
Qed.

Lemma is_empty_true q : is_empty q = true ↔ entry_finder q = ∅.
Proof.
  unfold is_empty, __len__. rewrite Nat.eqb_eq. apply map_size_empty_iff.
Qed.




(** [pop] and [peek] throw the same tombstones away. *)
Lemma pop_peek_skip_tombstone q e h :
  pq_inv q → heapq.heappop (entry_lt (store q)) (heap q) = Some (e, h) →
  node (store q !!! e) = REMOVED →
  pop q = pop (set_heap h q) ∧ peek q = peek (set_heap h q).
Proof.
  intros Hq Hpop Hn.
  destruct (heappop_inv q e h Hq Hpop) as (H0 & Hperm & _ & _).
  apply Permutation_length in Hperm. simpl in Hperm.
  unfold pop, peek. cbn [heap set_heap]. rewrite Hperm.
  cbn [pop_loop peek_loop]. rewrite Hpop. cbn [store set_heap].
  destruct (heap q) as [|e0 h0] eqn:Hh; [done|].
  injection H0 as ->. by rewrite Hn.
Qed.

Lemma peek_loop_then_pop fuel : ∀ q r q',
  pq_inv q → length (heap q) ≤ fuel →
  peek_loop fuel q = Some (r, q') →
  pop q' = pop q ∧ peek q' = Some (r, q').
Proof.
  induction fuel as [|fuel IH]; intros q r q' Hq Hfuel Hpeek.
  { destruct (heap q) eqn:Hh; [|simpl in Hfuel; lia].
    simpl in Hpeek. rewrite Hh in Hpeek. injection Hpeek as <- <-.
    split; [done|]. unfold peek. rewrite Hh. simpl. by rewrite Hh. }
  simpl in Hpeek. destruct (heap q) as [|e h0] eqn:Hh.
  { injection Hpeek as <- <-. split; [done|].
    unfold peek. rewrite Hh. simpl. by rewrite Hh. }
  destruct (node (store q !!! e)) as [n|] eqn:Hn.
  { injection Hpeek as <- <-. split; [done|].
    unfold peek. rewrite Hh. simpl. by rewrite Hh, Hn. }
  rewrite <-Hh in Hpeek.
  destruct (heapq.heappop (entry_lt (store q)) (heap q)) as [[e' h]|] eqn:Hpop;
    last by (apply heappop_None in Hpop; congruence).
  destruct (heappop_inv q e' h Hq Hpop) as (H0 & Hperm & _ & Hcase).
  assert (e' = e) as -> by (rewrite Hh in H0; by injection H0).
  rewrite Hn in Hcase.
  destruct (pop_peek_skip_tombstone q e h Hq Hpop Hn) as [-> _].
  apply (IH (set_heap h q)); [done| |done].
  apply Permutation_length in Hperm. rewrite Hh in Hperm. simpl in *. lia.
Qed.

(** X5.  [peek] only throws tombstones away: membership, the entries and
    the counter are as before, it returns [None] exactly when the queue is
    empty, a second [peek] returns the same node and changes nothing more,
    and the next [pop] returns what it would have returned without the
    [peek]. *)
Theorem peek_only_drops_tombstones q r q' :
  pq_inv q → peek q = Some (r, q') →
  entry_finder q' = entry_finder q
  ∧ store q' = store q
  ∧ counter q' = counter q
  ∧ (r = Ok None ↔ is_empty q = true)
  ∧ peek q' = Some (r, q')
  ∧ pop q' = pop q.
Proof.
  intros Hq Hpeek.
  destruct (peek_spec q Hq) as (r0 & q0 & Hpeek' & Hq0 & Hpost).
  rewrite Hpeek in Hpeek'. injection Hpeek' as -> ->.
  destruct Hpost as (Hst & Hctr & Hf & Hsub & Hdead & Hr).
  destruct (peek_loop_then_pop _ q (Ok r0) q0 Hq (Nat.le_refl _) Hpeek)
    as [Hpop Hagain].
  split_and!; try done.
  pose proof (live_entries_size q Hq) as Hsz.
  unfold is_empty, __len__. rewrite <-Hsz, Nat.eqb_eq, length_zero_iff_nil.
  rewrite live_entries_nil. destruct r0 as [n|].
  - destruct Hr as (e & He & Hn & _). split; [done|]. intros Hall.
    assert (is_live (store q) e = false) as Hd%is_live_false; [|congruence].
    eapply Hall, Hsub, list_elem_of_lookup_2, He.
  - split; [|done]. intros _ a Ha. apply Hdead; [done|].
    rewrite Hr. apply not_elem_of_nil.
Qed.

(** [pop] right after the push of a node that was not queued. *)
Lemma pop_after_push_fresh n (p : Z) q :
  pq_inv q → entry_finder q !! n = None →
  ∃ k ek q',
    pop (push_fresh n p q) = Some (Ok k, q')
    ∧ (ek = length (store q) ∧ k = n
       ∨ ek ∈ heap q ∧ node (store q !!! ek) = Live k)
    ∧ (ek ≠ length (store q) →
       (priority (store q !!! ek) ≤ p)%Z)
    ∧ (∀ a, a ∈ heap q → is_live (store q) a = true →
         (ek = length (store q) → (p < priority (store q !!! a))%Z)
         ∧ (ek ≠ length (store q) → a ≠ ek → before (store q) ek a)).
Proof.
  intros Hq Hn.
  pose proof (pq_inv_push_fresh n p q Hq Hn) as Hq1.
  destruct (push_fresh_heap n p q Hq) as [_ Hperm].
  set (q1 := push_fresh n p q) in *.
  assert (Hin : ∀ a, a ∈ heap q1 ↔ a = length (store q) ∨ a ∈ heap q).
  { intros a. by rewrite Hperm, elem_of_cons. }
  assert (Hnew : store q1 !!! length (store q) =
                 {| priority := p; count := counter q; node := Live n |}).
  { simpl. by rewrite lookup_total_app_r, Nat.sub_diag. }
  assert (Hold : ∀ a, a ∈ heap q → store q1 !!! a = store q !!! a).
  { intros a Ha%(inv_alloc _ Hq). simpl. by rewrite lookup_total_app_l. }
  assert (Hfresh : length (store q) ∉ heap q).
  { intros H%(inv_alloc _ Hq). lia. }
  destruct (pop_spec q1 Hq1) as (r & q' & Hpop & _ & _ & _ & _ & Hr).
  destruct r as [k|x]; last first.
  { destruct Hr as (_ & _ & _ & Hdead).
    assert (is_live (store q1) (length (store q)) = false) as Hd%is_live_false.
    { apply Hdead, Hin. by left. }
    rewrite Hnew in Hd. done. }
  destruct Hr as (ek & Hek & _ & Hk & _ & _ & _ & Hmin).
  exists k, ek, q'. split; [done|].
  apply Hin in Hek as [->|Hek].
  - rewrite Hnew in Hk. injection Hk as <-.
    split_and!; [by left|done|]. intros a Ha Hlive. split; [|done]. intros _.
    assert (a ≠ length (store q)) as Hne by (by intros ->).
    specialize (Hmin a (proj2 (Hin a) (or_intror Ha))).
    unfold is_live, before in Hmin. rewrite Hnew, Hold in Hmin by done.
    destruct (Hmin Hlive Hne) as [?|[? Hc]]; [done|]. simpl in *.
    pose proof (inv_count_lt _ Hq _ Ha). lia.
  - assert (ek ≠ length (store q)) as Hne by (by intros ->).
    rewrite Hold in Hk by done.
    assert (before (store q1) ek (length (store q))) as Hb.
    { apply Hmin; [apply Hin; by left| |done].
      apply is_live_true. rewrite Hnew. eauto. }
    unfold before in Hb. rewrite Hnew, Hold in Hb by done. simpl in Hb.
    split_and!; [by right|intros _; lia|].
    intros a Ha Hlive. split; [done|]. intros _ Hae.
    specialize (Hmin a (proj2 (Hin a) (or_intror Ha))).
    unfold is_live, before in *. rewrite !Hold in Hmin by done.
    by apply Hmin.
Qed.


(** X7.  [clear] gives a queue that behaves like a new one: size 0,
    empty, no member, counter 0, [pop] raises [KeyError], [peek] returns
    [None], and a node pushed next is the one popped next, after which the
    queue is empty again. *)
Theorem clear_gives_an_empty_queue q n (p : Z) :
  __len__ (clear q) = 0
  ∧ is_empty (clear q) = true
  ∧ (∀ m, __contains__ m (clear q) = false)
  ∧ counter (clear q) = 0
  ∧ pop (clear q) = Some (Raise KeyError, clear q)
  ∧ peek (clear q) = Some (Ok None, clear q)
  ∧ ∃ q', pop (push n p (clear q)).2 = Some (Ok n, q') ∧ is_empty q' = true.
Proof.
  split_and!; try done.
  assert (Hf : entry_finder (clear q) !! n = None) by done.
  rewrite push_unfold.
  replace (__contains__ n (clear q)) with false by done. cbn [snd].
  destruct (pop_after_push_fresh n p (clear q) (pq_inv_clear q) Hf)
    as (k & ek & q' & Hpop & Hwho & _).
  destruct Hwho as [[_ ->]|[Hek _]]; [|by apply elem_of_nil in Hek].
  exists q'. split; [done|].
  destruct (pop_spec _ (pq_inv_push_fresh n p _ (pq_inv_clear q) Hf))
    as (r & q2 & Hpop' & _ & _ & _ & _ & Hr).
  rewrite Hpop in Hpop'. injection Hpop' as <- <-.
  destruct Hr as (e & _ & _ & _ & _ & Hf' & _).
  apply is_empty_true. rewrite Hf'. simpl.
  by rewrite delete_insert_eq, delete_empty.
Qed.
End PriorityQueue_more.

Section PriorityQueue_more_examples.
Import PriorityQueue Fixtures.

Lemma push_new_node_witness :
  (push 5 4 pq_example).1 = Ok tt
  ∧ __contains__ 5 (push 5 4 pq_example).2 = true
  ∧ __len__ (push 5 4 pq_example).2 = S (__len__ pq_example)
  ∧ (∃ e, entries_of 5 (push 5 4 pq_example).2 = [e]
        ∧ priority (store (push 5 4 pq_example).2 !!! e) = 4%Z
        ∧ (e ∉ heap pq_example))
  ∧ ∀ m, m ≠ 5 →
      entry_finder (push 5 4 pq_example).2 !! m = entry_finder pq_example !! m
      ∧ ∀ e, entry_finder pq_example !! m = Some e →
          store (push 5 4 pq_example).2 !!! e = store pq_example !!! e.
Proof.
  apply (push_new_node 5 4 pq_example).
  - apply pq_example_inv.
  - reflexivity.
Defined.

Lemma remove_touches_one_node_witness :
  (∀ k, __contains__ k pq_example = false →
        remove k pq_example = (Raise KeyError, pq_example))
  ∧ (∀ m, m ≠ 7 →
       entry_finder (remove 7 pq_example).2 !! m = entry_finder pq_example !! m
       ∧ ∀ e, entry_finder pq_example !! m = Some e →
           store (remove 7 pq_example).2 !!! e = store pq_example !!! e)
  ∧ ∀ m q', pop (remove 7 pq_example).2 = Some (Ok m, q') → m ≠ 7.
Proof. apply (remove_touches_one_node 7 pq_example). apply pq_example_inv. Defined.

Lemma pop_takes_out_one_node_witness :
  ∃ q',
    pop pq_example = Some (Ok 3, q')
    ∧ __contains__ 3 pq_example = true
    ∧ __contains__ 3 q' = false
    ∧ S (__len__ q') = __len__ pq_example
    ∧ store q' = store pq_example
    ∧ ∀ m, m ≠ 3 → entry_finder q' !! m = entry_finder pq_example !! m.
Proof.
  eexists. split; [reflexivity|].
  apply (pop_takes_out_one_node pq_example 3).
  - apply pq_example_inv.
  - reflexivity.
Defined.


Lemma peek_only_drops_tombstones_witness :
  ∃ q',
    peek pq_example = Some (Ok (Some 3), q')
    ∧ length (heap q') < length (heap pq_example)
    ∧ entry_finder q' = entry_finder pq_example
    ∧ store q' = store pq_example
    ∧ counter q' = counter pq_example
    ∧ (Ok (Some 3) = Ok None ↔ is_empty pq_example = true)
    ∧ peek q' = Some (Ok (Some 3), q')
    ∧ pop q' = pop pq_example.
Proof.
  eexists. split; [reflexivity|]. split; [vm_compute; lia|].
  apply (peek_only_drops_tombstones pq_example (Ok (Some 3))).
  - apply pq_example_inv.
  - reflexivity.
Defined.


End PriorityQueue_more_examples.

(** ** More about the queue and the stack *)

Section fifo_lifo_more.
Context {A : Type}.

(** X8.  [Queue.peek] shows what [Queue.pop] will return: on an empty
    queue [peek] returns [None] and [pop] raises [IndexError], leaving the
    queue as it is; otherwise both give the front item, and [pop] leaves
    the rest, one item less. *)
Theorem queue_peek_shows_next_pop (q : Queue.t A) :
  (Queue.items q = []
   ∧ Queue.peek q = Ok None ∧ Queue.pop q = (Raise IndexError, q))
  ∨ (∃ x q',
       Queue.peek q = Ok (Some x) ∧ Queue.pop q = (Ok x, q')
       ∧ Queue.items q = x :: Queue.items q'
       ∧ S (Queue.__len__ q') = Queue.__len__ q).
Proof.
  destruct q as [[|x rest]].
  - by left.
  - right. by exists x, {| Queue.items := rest |}.
Qed.

(** X9.  [Stack.peek] shows what [Stack.pop] will return: on an empty
    stack [peek] returns [None] and [pop] raises [IndexError], leaving the
    stack as it is; otherwise both give the top item, [pop] leaves one
    item less, and pushing the item back restores the stack. *)
Theorem stack_peek_shows_next_pop (s : Stack.t A) :
  (Stack.items s = []
   ∧ Stack.peek s = Ok None ∧ Stack.pop s = (Raise IndexError, s))
  ∨ (∃ x s',
       Stack.peek s = Ok (Some x) ∧ Stack.pop s = (Ok x, s')
       ∧ Stack.items s = Stack.items s' ++ [x]
       ∧ S (Stack.__len__ s') = Stack.__len__ s
       ∧ Stack.push x s' = s).
Proof.
  destruct s as [its]. destruct (decide (its = [])) as [->|Hne].
  - by left.
  - right. apply last_is_Some in Hne as [x Hx].
    apply last_Some in Hx as [front ->].
    exists x, {| Stack.items := front |}.
    rewrite (Stack_pop_snoc {| Stack.items := front ++ [x] |} front x eq_refl).
    unfold Stack.peek, Stack.is_empty, Stack.__len__. simpl.
    rewrite length_app, last_snoc. simpl.
    replace (length front + 1 =? 0) with false by lia.
    split_and!; try done. lia.
Qed.

Lemma Queue_pop_all_items (its : list A) :
  Queue.pop_all (S (length its)) {| Queue.items := its |} =
    Some (its, Queue.__init__).
Proof.
  induction its as [|x its IH]; [done|].
  change (Queue.pop_all (S (length (x :: its))) {| Queue.items := x :: its |})
    with (match Queue.pop_all (S (length its)) {| Queue.items := its |} with
          | Some (xs, q) => Some (x :: xs, q)
          | None => None
          end).
  by rewrite IH.
Qed.

Lemma Stack_pop_all_items (its : list A) :
  Stack.pop_all (S (length its)) {| Stack.items := its |} =
    Some (reverse its, Stack.__init__).
Proof.
  induction its as [|x its IH] using rev_ind; [done|].
  replace (length (its ++ [x])) with (S (length its))
    by (rewrite length_app; simpl; lia).
  change (Stack.pop_all (S (S (length its))) {| Stack.items := its ++ [x] |})
    with (match Stack.pop {| Stack.items := its ++ [x] |} with
          | (Raise _, s) => Some ([], s)
          | (Ok y, s) =>
              match Stack.pop_all (S (length its)) s with
              | Some (ys, s) => Some (y :: ys, s)
              | None => None
              end
          end).
  rewrite (Stack_pop_snoc {| Stack.items := its ++ [x] |} its x eq_refl), IH.
  by rewrite reverse_snoc.
Qed.

(** X10.  Popping a queue until [IndexError] returns its items from
    front to back and leaves it empty; after pushing [xs] onto a new queue
    the items come back as [xs]. *)
Theorem queue_pop_all_in_push_order (q : Queue.t A) (xs : list A) :
  Queue.pop_all (S (Queue.__len__ q)) q = Some (Queue.items q, Queue.__init__)
  ∧ Queue.pop_all (S (length xs)) (Queue.push_all xs Queue.__init__) =
      Some (xs, Queue.__init__).
Proof.
  split.
  - destruct q as [its]. apply Queue_pop_all_items.
  - pose proof (Queue_items_push_all xs (@Queue.__init__ A)) as Hi.
    destruct (Queue.push_all xs Queue.__init__) as [its]. simpl in Hi.
    subst its. apply Queue_pop_all_items.
Qed.

(** X11.  Popping a stack until [IndexError] returns its items from top
    to bottom and leaves it empty; after pushing [xs] onto a new stack the
    items come back as [xs] reversed. *)
Theorem stack_pop_all_in_reverse_push_order (s : Stack.t A) (xs : list A) :
  Stack.pop_all (S (Stack.__len__ s)) s =
    Some (reverse (Stack.items s), Stack.__init__)
  ∧ Stack.pop_all (S (length xs)) (Stack.push_all xs Stack.__init__) =
      Some (reverse xs, Stack.__init__).
Proof.
  split.
  - destruct s as [its]. apply Stack_pop_all_items.
  - pose proof (Stack_items_push_all xs (@Stack.__init__ A)) as Hi.
    destruct (Stack.push_all xs Stack.__init__) as [its]. simpl in Hi.
    subst its. apply Stack_pop_all_items.
Qed.

(** X12.  After any sequence of pushes and pops, [get_all_nodes] is what
    was there or pushed, less the items already popped, in order;
    [__len__], [__contains__] and [is_empty] agree with it, and [clear]
    leaves nothing. *)
Theorem queue_contents_after_any_use `{EqDecision A}
    (ops : list (Queue.op A)) (q : Queue.t A) :
  Queue.get_all_nodes (Queue.run ops q).2 =
    drop (length (Queue.run ops q).1) (Queue.items q ++ Queue.pushed ops)
  ∧ Queue.__len__ (Queue.run ops q).2 + length (Queue.run ops q).1 =
      Queue.__len__ q + length (Queue.pushed ops)
  ∧ (∀ x, Queue.__contains__ x (Queue.run ops q).2 = true ↔
          x ∈ drop (length (Queue.run ops q).1)
                   (Queue.items q ++ Queue.pushed ops))
  ∧ Queue.is_empty (Queue.run ops q).2 =
      (length (Queue.run ops q).1 =?
       Queue.__len__ q + length (Queue.pushed ops))
  ∧ Queue.__len__ (Queue.clear (Queue.run ops q).2) = 0.
Proof.
  pose proof (Queue_run_fifo ops q) as Hrun.
  unfold Queue.get_all_nodes, Queue.__len__, Queue.__contains__,
    Queue.is_empty.
  assert (Hitems : Queue.items (Queue.run ops q).2 =
            drop (length (Queue.run ops q).1)
                 (Queue.items q ++ Queue.pushed ops)).
  { by rewrite Hrun, drop_app_length. }
  assert (Hlen : length (Queue.items (Queue.run ops q).2)
                 + length (Queue.run ops q).1
                 = length (Queue.items q) + length (Queue.pushed ops)).
  { apply (f_equal length) in Hrun. rewrite !length_app in Hrun. lia. }
  split_and!; try done.
  - intros x. by rewrite bool_decide_eq_true, Hitems.
  - lia.
Qed.
End fifo_lifo_more.

(** ** Playback of a recorded search *)

Section gv_more.
Import GraphVisualizer.
Context {number : Type} {SA : SearchAgentClass number}.
Implicit Types (gv : t number SA) (gen : Gen SA) (agent : SearchAgent number)
  (ns : gmap nat string) (name : nat).

Local Ltac gv_proj :=
  cbn [nodes source_node goal_nodes search_agent search_generator
       animation_states current_state_index is_animating is_paused
       animation_speed animation_timer recording_gif effects
       emit set_nodes set_search set_animation set_timer fst snd] in *.

Lemma get_list_fringe agent ns :
  get_list _ (snapshot_of agent ns) "fringe" = Ok (fringe_list agent).
Proof. reflexivity. Qed.

Lemma get_list_visited agent ns :
  get_list _ (snapshot_of agent ns) "visited" = Ok (visited_list agent).
Proof. reflexivity. Qed.

Lemma get_list_traversal agent ns :
  get_list _ (snapshot_of agent ns) "traversal" = Ok (traversal_array agent).
Proof. reflexivity. Qed.

Lemma get_list_path agent ns :
  get_list _ (snapshot_of agent ns) "path" = Ok (path_found agent).
Proof. reflexivity. Qed.

Lemma get_info_captured agent ns :
  get_info _ (snapshot_of agent ns) = Ok (current_node_info agent).
Proof. reflexivity. Qed.

Lemma get_states_captured agent ns :
  get_states _ (snapshot_of agent ns) = Ok ns.
Proof. reflexivity. Qed.

(** Showing a captured state never raises. *)
Lemma restore_captured agent ns gv :
  restore_search_state (snapshot_of agent ns) gv =
    (Ok tt,
     emit [Render]
       (set_nodes
          (map_imap (λ name old, Some (default old (ns !! name))) (nodes gv))
          (emit [ShowInfo (current_node_info agent)]
          (emit (update_data_display "path-list" (path_found agent))
          (emit (update_data_display "traversal-list" (traversal_array agent))
          (emit (update_data_display "visited-list" (visited_list agent))
          (emit (update_data_display "fringe-list" (fringe_list agent)) gv))))))).
Proof.
  unfold restore_search_state.
  rewrite get_list_fringe, get_list_visited, get_list_traversal, get_list_path,
    get_info_captured, get_states_captured. reflexivity.
Qed.

Lemma restore_captured_nodes agent ns gv name :
  nodes (restore_search_state (snapshot_of agent ns) gv).2 !! name =
    (λ old, default old (ns !! name)) <$> nodes gv !! name.
Proof.
  rewrite restore_captured. gv_proj. rewrite map_lookup_imap.
  by destruct (nodes gv !! name).
Qed.

Lemma getitem_nonneg {T} (l : list T) (i : Z) :
  (0 ≤ i)%Z → getitem l i = l !! Z.to_nat i.
Proof. intros Hi. unfold getitem. destruct (Z.leb_spec 0 i); [done|lia]. Qed.

Lemma captured_lookup (states : list (list (string * value number))) (i : Z) :
  Forall captured states → (0 ≤ i < Z.of_nat (length states))%Z →
  ∃ agent ns, getitem states i = Some (snapshot_of agent ns)
              ∧ states !! Z.to_nat i = Some (snapshot_of agent ns).
Proof.
  intros Hall Hi. rewrite getitem_nonneg by lia.
  destruct (lookup_lt_is_Some_2 states (Z.to_nat i)) as [s Hs]; [lia|].
  destruct (proj1 (Forall_lookup _ _) Hall _ _ Hs) as (agent & ns & ->).
  by exists agent, ns.
Qed.

(** ** [clear_path] *)

Lemma clear_path_lookup gv name :
  nodes (clear_path gv) !! name = cleared_state gv name <$> nodes gv !! name.
Proof.
  unfold clear_path. gv_proj. rewrite map_lookup_imap.
  by destruct (nodes gv !! name).
Qed.

Lemma cleared_state_not_search gv name s :
  cleared_state gv name s ≠ "visited"%string
  ∧ cleared_state gv name s ≠ "path"%string.
Proof.
  unfold cleared_state.
  destruct (bool_decide (name ∈ goal_nodes gv)); [done|].
  destruct (bool_decide (source_node gv = Some name)); [done|].
  case_bool_decide as Hs; [done|]. split; intros ->; apply Hs; auto.
Qed.

Lemma cleared_state_idemp gv name s :
  cleared_state gv name (cleared_state gv name s) = cleared_state gv name s.
Proof.
  unfold cleared_state.
  destruct (bool_decide (name ∈ goal_nodes gv)); [done|].
  destruct (bool_decide (source_node gv = Some name)); [done|].
  destruct (bool_decide (s = "visited" ∨ s = "path")%string) eqn:Hs; [done|].
  by rewrite Hs.
Qed.

(** X13.  [clear_path] keeps the set of nodes and resets their states: no
    node is left ['visited'] or ['path']; every goal node becomes ['goal'],
    the source becomes ['source'] unless it is also a goal, and any other
    node that was not ['visited'] or ['path'] keeps its state.  Clearing
    twice is the same as clearing once, and the recorded frames, the shown
    frame and the agent are not touched. *)
Theorem clear_path_resets_node_states gv :
  (∀ name, is_Some (nodes (clear_path gv) !! name)
           ↔ is_Some (nodes gv !! name))
  ∧ (∀ name s, nodes (clear_path gv) !! name = Some s →
       s ≠ "visited"%string ∧ s ≠ "path"%string)
  ∧ (∀ name, is_Some (nodes gv !! name) → name ∈ goal_nodes gv →
       nodes (clear_path gv) !! name = Some "goal"%string)
  ∧ (∀ name, is_Some (nodes gv !! name) → source_node gv = Some name →
       (name ∉ goal_nodes gv) →
       nodes (clear_path gv) !! name = Some "source"%string)
  ∧ (∀ name s, nodes gv !! name = Some s → source_node gv ≠ Some name →
       (name ∉ goal_nodes gv) →
       nodes (clear_path gv) !! name =
         Some (if bool_decide (s = "visited" ∨ s = "path")
               then "empty" else s)%string)
  ∧ nodes (clear_path (clear_path gv)) = nodes (clear_path gv)
  ∧ animation_states (clear_path gv) = animation_states gv
  ∧ current_state_index (clear_path gv) = current_state_index gv
  ∧ search_agent (clear_path gv) = search_agent gv.
Proof.
  split_and!; try done.
  - intros name. rewrite clear_path_lookup, fmap_is_Some. done.
  - intros name s. rewrite clear_path_lookup.
    destruct (nodes gv !! name) as [s0|]; [|done]. simpl.
    intros [= <-]. apply cleared_state_not_search.
  - intros name [s Hs] Hgoal. rewrite clear_path_lookup, Hs. simpl.
    unfold cleared_state. by rewrite (bool_decide_true (name ∈ _)).
  - intros name [s Hs] Hsrc Hgoal. rewrite clear_path_lookup, Hs. simpl.
    unfold cleared_state.
    by rewrite (bool_decide_false (name ∈ _)), (bool_decide_true (source_node gv = _)).
  - intros name s Hs Hsrc Hgoal. rewrite clear_path_lookup, Hs. simpl.
    unfold cleared_state.
    by rewrite (bool_decide_false (name ∈ _)), (bool_decide_false (source_node gv = _)).
  - apply map_eq. intros name. rewrite !clear_path_lookup.
    destruct (nodes gv !! name) as [s|]; [|done]. simpl. f_equal.
    apply (cleared_state_idemp gv).
Qed.

(** ** capture and restore *)

(** X14.  A state captured while a search agent exists can always be shown
    again: [restore_search_state] returns normally, gives every node of the
    graph that the state knows the state recorded for it, leaves the other
    nodes as they are and adds no node.  Shown on a graph with the same
    nodes as at capture time, it brings back exactly the node states of
    that time; the recorded frames, the index and the agent are not
    changed. *)
Theorem capture_then_restore gv gv2 agent :
  search_agent gv = Some agent →
  ∃ state gv3,
    capture_search_state gv = Ok state
    ∧ restore_search_state state gv2 = (Ok tt, gv3)
    ∧ (∀ name, nodes gv3 !! name =
         match nodes gv2 !! name with
         | None => None
         | Some old => Some (default old (nodes gv !! name))
         end)
    ∧ ((∀ name, is_Some (nodes gv2 !! name) ↔ is_Some (nodes gv !! name)) →
       nodes gv3 = nodes gv)
    ∧ animation_states gv3 = animation_states gv2
    ∧ current_state_index gv3 = current_state_index gv2
    ∧ search_agent gv3 = search_agent gv2.
Proof.
  intros Hagent. eexists _, _.
  split; [by apply capture_search_state_Some|].
  split; [apply restore_captured|]. gv_proj.
  assert (Hlook : ∀ name,
    map_imap (λ name old, Some (default old (nodes gv !! name))) (nodes gv2)
      !! name =
    match nodes gv2 !! name with
    | None => None
    | Some old => Some (default old (nodes gv !! name))
    end).
  { intros name. rewrite map_lookup_imap. by destruct (nodes gv2 !! name). }
  split_and!; try done.
  intros Hdom. apply map_eq. intros name. rewrite Hlook.
  specialize (Hdom name).
  destruct (nodes gv2 !! name) as [old|], (nodes gv !! name) as [s|]; simpl;
    try done.
  - destruct Hdom as [Hd _]. by destruct Hd.
  - destruct Hdom as [_ Hd]. by destruct Hd.
Qed.

(** ** the timer *)

Lemma ticks_idle n gv :
  is_animating gv = false ∨ is_paused gv = true →
  ticks n gv = (Ok tt, gv).
Proof.
  intros Hidle. induction n as [|n IH]; [done|]. simpl.
  unfold animate_next_step.
  replace (negb (is_animating gv) || is_paused gv) with true; [done|].
  destruct Hidle as [-> | ->]; [done|]. by rewrite orb_true_r.
Qed.

Lemma ticks_add a : ∀ b gv,
  ticks (a + b) gv =
    match ticks a gv with
    | (Ok _, gv1) => ticks b gv1
    | (Raise e, gv1) => (Raise e, gv1)
    end.
Proof.
  induction a as [|a IH]; intros b gv; [done|]. simpl.
  destruct (animate_next_step gv) as [[u|e] gv1]; [apply IH|done].
Qed.

(** One run of [animate_next_step] with a frame left to show. *)
Lemma tick_step gv :
  is_animating gv = true → is_paused gv = false →
  animation_speed gv ≠ 0%Z →
  Forall captured (animation_states gv) →
  (-1 ≤ current_state_index gv < Z.of_nat (length (animation_states gv)) - 1)%Z →
  ∃ agent ns gv',
    animation_states gv !! Z.to_nat (current_state_index gv + 1)
      = Some (snapshot_of agent ns)
    ∧ animate_next_step gv = (Ok tt, gv')
    ∧ current_state_index gv' = (current_state_index gv + 1)%Z
    ∧ is_animating gv' = true ∧ is_paused gv' = false
    ∧ animation_speed gv' = animation_speed gv
    ∧ animation_states gv' = animation_states gv
    ∧ search_agent gv' = search_agent gv
    ∧ search_generator gv' = search_generator gv
    ∧ ∀ name, nodes gv' !! name =
        (λ old, default old (ns !! name)) <$> nodes gv !! name.
Proof.
  intros Hanim Hpaused Hspeed Hall Hidx.
  destruct (captured_lookup (animation_states gv) (current_state_index gv + 1)
              Hall) as (agent & ns & Hget & Hlook); [lia|].
  exists agent, ns. unfold animate_next_step. rewrite Hanim, Hpaused. simpl.
  destruct (Z.ltb_spec (current_state_index gv)
              (Z.of_nat (length (animation_states gv)) - 1)); [|lia].
  gv_proj. rewrite Hget, restore_captured. gv_proj.
  destruct (recording_gif gv); gv_proj;
    (destruct (Z.eqb_spec (animation_speed gv) 0); [done|]);
    eexists; split_and!; try done; gv_proj;
    intros name; rewrite map_lookup_imap; by destruct (nodes gv !! name).
Qed.

(** One run of [animate_next_step] with no frame left. *)
Lemma tick_end gv :
  is_animating gv = true → is_paused gv = false →
  (Z.of_nat (length (animation_states gv)) - 1 ≤ current_state_index gv)%Z →
  animate_next_step gv = (Ok tt, animation_complete gv)
  ∧ is_animating (animation_complete gv) = false
  ∧ is_paused (animation_complete gv) = false
  ∧ current_state_index (animation_complete gv) = current_state_index gv
  ∧ animation_states (animation_complete gv) = animation_states gv
  ∧ nodes (animation_complete gv) = nodes gv
  ∧ search_agent (animation_complete gv) = search_agent gv
  ∧ search_generator (animation_complete gv) = search_generator gv.
Proof.
  intros Hanim Hpaused Hidx. unfold animate_next_step.
  rewrite Hanim, Hpaused. simpl.
  destruct (Z.ltb_spec (current_state_index gv)
              (Z.of_nat (length (animation_states gv)) - 1)); [lia|].
  split; [done|]. unfold animation_complete, update_search_results. gv_proj.
  destruct (search_agent gv) eqn:Hagent; gv_proj;
    destruct (recording_gif gv); gv_proj; by split_and!.
Qed.

Lemma ticks_play j : ∀ gv,
  is_animating gv = true → is_paused gv = false →
  animation_speed gv ≠ 0%Z →
  Forall captured (animation_states gv) →
  (-1 ≤ current_state_index gv)%Z →
  (current_state_index gv + Z.of_nat j
     ≤ Z.of_nat (length (animation_states gv)) - 1)%Z →
  ∃ gv',
    ticks j gv = (Ok tt, gv')
    ∧ current_state_index gv' = (current_state_index gv + Z.of_nat j)%Z
    ∧ is_animating gv' = true ∧ is_paused gv' = false
    ∧ animation_speed gv' = animation_speed gv
    ∧ animation_states gv' = animation_states gv
    ∧ (∀ name, is_Some (nodes gv' !! name) ↔ is_Some (nodes gv !! name))
    ∧ (0 < j → ∃ agent ns,
         animation_states gv !! Z.to_nat (current_state_index gv + Z.of_nat j)
           = Some (snapshot_of agent ns)
         ∧ ∀ name st, ns !! name = Some st → is_Some (nodes gv !! name) →
             nodes gv' !! name = Some st).
Proof.
  induction j as [|j IH]; intros gv Hanim Hpaused Hspeed Hall Hlo Hhi.
  { exists gv. split_and!; try done; [lia|lia]. }
  destruct (tick_step gv) as (agent & ns & gv1 & Hlook & Hstep & Hi1 & Ha1
    & Hp1 & Hs1 & Hst1 & _ & _ & Hn1); [done|done|done|done|lia|].
  destruct (IH gv1) as (gv' & Ht & Hi' & Ha' & Hp' & Hs' & Hst' & Hdom & Hfr);
    [done|done|congruence|by rewrite Hst1|lia|rewrite Hst1; lia|].
  assert (Hdom1 : ∀ name, is_Some (nodes gv1 !! name)
                          ↔ is_Some (nodes gv !! name)).
  { intros name. rewrite Hn1, fmap_is_Some. done. }
  exists gv'. simpl ticks. rewrite Hstep.
  split_and!; try done; try congruence.
  - lia.
  - intros name. by rewrite Hdom, Hdom1.
  - intros _. destruct j as [|j].
    + simpl in Ht. injection Ht as <-. exists agent, ns.
      split; [by rewrite <-Hlook; f_equal; lia|].
      intros name st Hst [old Hold]. by rewrite Hn1, Hold; simpl; rewrite Hst.
    + destruct Hfr as (agent' & ns' & Hlook' & Hshown); [lia|].
      exists agent', ns'. split.
      * rewrite <-Hst1, <-Hlook'. f_equal. lia.
      * intros name st Hst Hin. apply Hshown; [done|]. by apply Hdom1.
Qed.

(** X16.  Playback.  While the animation runs unpaused at a nonzero speed
    over captured frames, every run of [animate_next_step] shows the next
    recorded frame: after [j] runs the index has moved on by [j] and the
    nodes have the states recorded in that frame.  The run after the last
    frame ends the animation, and every later run does nothing. *)
Theorem timer_plays_each_frame_then_stops gv :
  is_animating gv = true → is_paused gv = false →
  animation_speed gv ≠ 0%Z →
  Forall captured (animation_states gv) →
  index_ok gv →
  let last := (Z.of_nat (length (animation_states gv)) - 1)%Z in
  let left := Z.to_nat (last - current_state_index gv) in
  (∀ j, j ≤ left → ∃ gv',
     ticks j gv = (Ok tt, gv')
     ∧ current_state_index gv' = (current_state_index gv + Z.of_nat j)%Z
     ∧ is_animating gv' = true
     ∧ animation_states gv' = animation_states gv
     ∧ (0 < j → ∃ agent ns,
          animation_states gv !! Z.to_nat (current_state_index gv + Z.of_nat j)
            = Some (snapshot_of agent ns)
          ∧ ∀ name st, ns !! name = Some st → is_Some (nodes gv !! name) →
              nodes gv' !! name = Some st))
  ∧ ∃ gv_end,
      (∀ n, ticks (S left + n) gv = (Ok tt, gv_end))
      ∧ is_animating gv_end = false
      ∧ current_state_index gv_end = last
      ∧ animation_states gv_end = animation_states gv.
Proof.
  intros Hanim Hpaused Hspeed Hall [Hlo Hhi] last left. split.
  - intros j Hj.
    destruct (ticks_play j gv) as (gv' & Ht & Hi' & Ha' & _ & _ & Hst' & _ & Hfr);
      [done|done|done|done|done|subst left last; lia|].
    exists gv'. split_and!; done.
  - destruct (ticks_play left gv)
      as (gv' & Ht & Hi' & Ha' & Hp' & _ & Hst' & _ & _);
      [done|done|done|done|done|subst left last; lia|].
    destruct (tick_end gv') as (Hend & Ha & _ & Hi & Hst & _);
      [done|done|rewrite Hst', Hi'; subst left last; lia|].
    exists (animation_complete gv'). split_and!.
    + intros n. replace (S left + n) with (left + S n) by lia.
      rewrite ticks_add, Ht. simpl ticks. rewrite Hend.
      apply ticks_idle. by left.
    + done.
    + rewrite Hi, Hi'. subst left last. lia.
    + by rewrite Hst.
Qed.

(** X15.  After [stop_search] the timer has nothing to do: every later run
    of [animate_next_step] returns at once.  Stopping keeps the recorded
    frames, the frame shown, the node states and the agent. *)
Theorem stop_search_halts_playback gv :
  (∀ n, ticks n (stop_search gv) = (Ok tt, stop_search gv))
  ∧ is_animating (stop_search gv) = false
  ∧ is_paused (stop_search gv) = false
  ∧ animation_states (stop_search gv) = animation_states gv
  ∧ current_state_index (stop_search gv) = current_state_index gv
  ∧ nodes (stop_search gv) = nodes gv
  ∧ search_agent (stop_search gv) = search_agent gv
  ∧ search_generator (stop_search gv) = search_generator gv.
Proof.
  assert (Hstop : is_animating (stop_search gv) = false).
  { unfold stop_search. gv_proj. by destruct (animation_timer gv). }
  split; [intros n; apply ticks_idle; by left|].
  unfold stop_search. gv_proj. destruct (animation_timer gv); done.
Qed.

(** ** stepping by hand *)

Lemma step_forward_spec gv :
  Forall captured (animation_states gv) → index_ok gv →
  ∃ gv',
    step_forward gv = (Ok tt, gv')
    ∧ current_state_index gv' =
        (if (current_state_index gv <?
             Z.of_nat (length (animation_states gv)) - 1)%Z
         then current_state_index gv + 1 else current_state_index gv)%Z
    ∧ animation_states gv' = animation_states gv
    ∧ is_animating gv' = is_animating gv
    ∧ ((Z.of_nat (length (animation_states gv)) - 1
          ≤ current_state_index gv)%Z → gv' = gv).
Proof.
  intros Hall [Hlo Hhi]. unfold step_forward.
  destruct (Z.ltb_spec (current_state_index gv)
              (Z.of_nat (length (animation_states gv)) - 1)) as [Hlt|Hge];
    last first.
  { rewrite andb_false_r. exists gv. by split_and!. }
  destruct (Nat.eqb_spec (length (animation_states gv)) 0) as [Hz|Hnz]; [lia|].
  simpl. gv_proj.
  destruct (captured_lookup (animation_states gv) (current_state_index gv + 1)
              Hall) as (agent & ns & Hget & _); [lia|].
  rewrite Hget, restore_captured. gv_proj.
  destruct (_ =? _)%Z; eexists; split_and!; try done; try (intros; lia);
    unfold update_search_results; gv_proj; by destruct (search_agent gv).
Qed.

Lemma step_backward_spec gv :
  Forall captured (animation_states gv) → index_ok gv →
  ∃ gv',
    step_backward gv = (Ok tt, gv')
    ∧ current_state_index gv' =
        (if (0 <? current_state_index gv)%Z
         then current_state_index gv - 1 else current_state_index gv)%Z
    ∧ animation_states gv' = animation_states gv
    ∧ is_animating gv' = is_animating gv
    ∧ ((current_state_index gv ≤ 0)%Z → gv' = gv).
Proof.
  intros Hall [Hlo Hhi]. unfold step_backward.
  destruct (Z.ltb_spec 0 (current_state_index gv)) as [Hlt|Hge]; last first.
  { rewrite andb_false_r. exists gv. by split_and!. }
  destruct (Nat.eqb_spec (length (animation_states gv)) 0) as [Hz|Hnz]; [lia|].
  simpl. gv_proj.
  destruct (captured_lookup (animation_states gv) (current_state_index gv - 1)
              Hall) as (agent & ns & Hget & _); [lia|].
  rewrite Hget, restore_captured. gv_proj.
  eexists; split_and!; try done. intros; lia.
Qed.

(** X17.  Stepping by hand never leaves the recording and never raises on
    captured frames: [step_forward] moves to the next frame and does
    nothing at the last one; [step_backward] moves to the previous frame
    and does nothing at the first one or before any frame is shown, so the
    blank start (index [-1]) cannot be reached again by stepping back.  A
    step forward followed by a step backward returns to the same frame
    index. *)
Theorem stepping_stays_within_recording gv :
  Forall captured (animation_states gv) → index_ok gv →
  let last := (Z.of_nat (length (animation_states gv)) - 1)%Z in
  ∃ gf gb,
    step_forward gv = (Ok tt, gf) ∧ step_backward gv = (Ok tt, gb)
    ∧ current_state_index gf =
        (if (current_state_index gv <? last)%Z
         then current_state_index gv + 1 else current_state_index gv)%Z
    ∧ current_state_index gb =
        (if (0 <? current_state_index gv)%Z
         then current_state_index gv - 1 else current_state_index gv)%Z
    ∧ index_ok gf ∧ index_ok gb
    ∧ animation_states gf = animation_states gv
    ∧ animation_states gb = animation_states gv
    ∧ ((last ≤ current_state_index gv)%Z → gf = gv)
    ∧ ((current_state_index gv ≤ 0)%Z → gb = gv)
    ∧ ((0 ≤ current_state_index gv < last)%Z →
       ∃ gfb, step_backward gf = (Ok tt, gfb)
              ∧ current_state_index gfb = current_state_index gv).
Proof.
  intros Hall Hok last.
  destruct (step_forward_spec gv Hall Hok) as (gf & Hf & Hfi & Hfs & _ & Hfe).
  destruct (step_backward_spec gv Hall Hok) as (gb & Hb & Hbi & Hbs & _ & Hbe).
  assert (Hokf : index_ok gf).
  { unfold index_ok in *. rewrite Hfi, Hfs.
    destruct (Z.ltb_spec (current_state_index gv)
                (Z.of_nat (length (animation_states gv)) - 1)); lia. }
  assert (Hokb : index_ok gb).
  { unfold index_ok in *. rewrite Hbi, Hbs.
    destruct (Z.ltb_spec 0 (current_state_index gv)); lia. }
  exists gf, gb. split_and!; try done.
  intros Hin.
  destruct (step_backward_spec gf) as (gfb & Hfb & Hfbi & _);
    [by rewrite Hfs|done|].
  exists gfb. split; [done|]. rewrite Hfbi, Hfi.
  destruct (Z.ltb_spec (current_state_index gv)
              (Z.of_nat (length (animation_states gv)) - 1)); [|subst last; lia].
  destruct (Z.ltb_spec 0 (current_state_index gv + 1)); lia.
Qed.

(** ** pausing *)

Lemma animate_next_step_keeps_paused gv :
  is_paused (animate_next_step gv).2 = is_paused gv.
Proof.
  unfold animate_next_step.
  destruct (negb (is_animating gv) || is_paused gv); [done|].
  destruct (current_state_index gv <? _)%Z; last first.
  { unfold animation_complete, update_search_results. gv_proj.
    destruct (search_agent gv); gv_proj; by destruct (recording_gif gv). }
  gv_proj. destruct (getitem _ _) as [state|]; [|done].
  set (gv1 := set_animation _ _ _ _ gv).
  assert (Hp : is_paused (restore_search_state state gv1).2 = is_paused gv).
  { unfold restore_search_state.
    repeat (match goal with
            | |- context [match ?x with Ok _ => _ | Raise _ => _ end] =>
                destruct x
            end; gv_proj; try done). }
  destruct (restore_search_state state gv1) as [[u|e] gv2]; gv_proj; [|done].
  destruct (recording_gif gv2), (animation_speed _ =? 0)%Z; gv_proj; done.
Qed.

(** X21.  Pausing a running animation and resuming it.  The first
    [toggle_pause] labels the button ['Resume'], returns normally and
    stops the playback where it is: later runs of the timer change
    nothing.  The second one labels the button ['Pause'] and carries on
    with [animate_next_step] on the unpaused state. *)
Theorem pause_holds_playback_until_resumed gv :
  is_paused gv = false →
  ∃ gv1,
    toggle_pause gv = (ResumeLabel, (Ok tt, gv1))
    ∧ is_paused gv1 = true
    ∧ (∀ n, ticks n gv1 = (Ok tt, gv1))
    ∧ current_state_index gv1 = current_state_index gv
    ∧ animation_states gv1 = animation_states gv
    ∧ nodes gv1 = nodes gv
    ∧ is_animating gv1 = is_animating gv
    ∧ (toggle_pause gv1).1 = PauseLabel
    ∧ is_paused (toggle_pause gv1).2.2 = false
    ∧ (is_animating gv = false → animation_timer gv = false →
       (toggle_pause gv1).2 = (Ok tt, gv)).
Proof.
  intros Hpaused. unfold toggle_pause at 1. rewrite Hpaused. gv_proj.
  eexists. split; [done|].
  assert (Hp1 : ∀ (b : bool) (gvx : t number SA),
    is_paused (if b then emit [ClearTimeout] gvx else gvx) = is_paused gvx).
  { by intros []. }
  split; [by rewrite Hp1|].
  split; [intros n; apply ticks_idle; right; by rewrite Hp1|].
  split_and!; try by destruct (animation_timer gv).
  - unfold toggle_pause. gv_proj. rewrite Hp1. gv_proj. cbn [negb snd].
    by rewrite animate_next_step_keeps_paused.
  - intros Hanim Htimer. unfold toggle_pause. rewrite Htimer. gv_proj.
    cbn [negb snd]. unfold animate_next_step. gv_proj. rewrite Hanim.
    cbn [negb orb]. destruct gv. simpl in *. by subst.
Qed.

(** ** [start_search] *)

(** X18.  With ['dls'] or ['ids'] selected and a depth-limit field that
    does not hold an integer, [start_search] raises [ValueError] half way:
    the old animation has been stopped, the path cleared and a new agent
    made, but no generator was made and no step was taken; the frames
    recorded by the previous search are still in place. *)
Theorem depth_limit_not_a_number_raises gv fuel doc source goal goals :
  size (nodes gv) ≠ 0 →
  source_node gv = Some source →
  goal_nodes gv = goal :: goals →
  algorithm_select doc = "dls"%string ∨ algorithm_select doc = "ids"%string →
  depth_limit doc = None →
  ∃ gv',
    start_search fuel doc gv = Some (Raise ValueError, gv')
    ∧ search_agent gv' =
        Some (new SA (nodes (clear_path gv)) source goal)
    ∧ search_generator gv' = search_generator gv
    ∧ animation_states gv' = animation_states gv
    ∧ current_state_index gv' = current_state_index gv
    ∧ is_animating gv' = false
    ∧ nodes gv' = nodes (clear_path gv).
Proof.
  intros Hsize Hsource Hgoal Halgo Hdepth. unfold start_search.
  destruct (Nat.eqb_spec (size (nodes gv)) 0) as [|_]; [done|].
  rewrite Hsource, Hgoal.
  assert (Hsel : select_generator SA doc = Raise ValueError).
  { unfold select_generator. rewrite Hdepth. by destruct Halgo as [-> | ->]. }
  rewrite Hsel. eexists. split; [done|].
  assert (Hn : nodes (clear_path (stop_search gv)) = nodes (clear_path gv)).
  { unfold clear_path, stop_search. gv_proj.
    by destruct (animation_timer gv). }
  gv_proj. rewrite Hn.
  unfold clear_path, stop_search. gv_proj.
  destruct (animation_timer gv); by split_and!.
Qed.

(** X19.  With a selection that is none of the eight algorithms no
    generator is made, and [start_search] goes on with the generator that
    is stored: a fresh visualizer has none and the loop raises
    [TypeError]; after a finished search the stored generator is at its
    end, the loop records nothing and the animation is over at once, with
    zero frames. *)
Theorem unknown_algorithm_uses_stored_generator gv fuel doc source goal goals :
  size (nodes gv) ≠ 0 →
  source_node gv = Some source →
  goal_nodes gv = goal :: goals →
  (algorithm_select doc ∉
     ["bfs"; "dfs"; "dls"; "ids"; "ucs"; "bidirectional"; "greedy";
      "astar"]%string) →
  match search_generator gv with
  | NoGenerator =>
      ∃ gv', start_search fuel doc gv = Some (Raise TypeError, gv')
             ∧ animation_states gv' = [] ∧ is_animating gv' = false
  | Exhausted =>
      ∃ gv', start_search fuel doc gv = Some (Ok tt, gv')
             ∧ animation_states gv' = [] ∧ is_animating gv' = false
             ∧ current_state_index gv' = (-1)%Z
             ∧ search_agent gv' =
                 Some (new SA (nodes (clear_path gv)) source goal)
  | Generator _ => True
  end.
Proof.
  intros Hsize Hsource Hgoal Halgo.
  assert (Hsel : select_generator SA doc = Ok None).
  { unfold select_generator.
    repeat (case_bool_decide as Heq;
            [exfalso; apply Halgo; rewrite Heq;
             repeat (first [by left | right])|clear Heq]).
    done. }
  assert (Hn : nodes (clear_path (stop_search gv)) = nodes (clear_path gv)).
  { unfold clear_path, stop_search. gv_proj.
    by destruct (animation_timer gv). }
  assert (Hg : search_generator (clear_path (stop_search gv))
               = search_generator gv).
  { unfold clear_path, stop_search. gv_proj.
    by destruct (animation_timer gv). }
  destruct (search_generator gv) as [|old|] eqn:Hgen; [|done|];
    unfold start_search;
    (destruct (Nat.eqb_spec (size (nodes gv)) 0) as [|_]; [done|]);
    rewrite Hsource, Hgoal, Hsel; gv_proj; rewrite Hg, ?Hgen, Hn.
  - eexists. split; [done|]. gv_proj. split; [done|].
    unfold clear_path, stop_search. gv_proj.
    by destruct (animation_timer gv).
  - set (gv3 := emit _ _).
    destruct (tick_end gv3) as (Hend & Ha & _ & Hi & Hst & _ & Hag & _);
      [done|done|subst gv3; gv_proj; simpl; lia|].
    rewrite Hend. eexists. split; [done|].
    rewrite Ha, Hi, Hst, Hag. subst gv3. gv_proj. done.
Qed.

(** X20.  A whole search.  On a graph with a source and a goal, for a
    selected algorithm whose generator yields [k] times and then ends,
    [start_search] runs the search to its end before anything is shown: it
    returns normally with the generator exhausted and [k] recorded frames,
    the [i]-th being the engine's state after [i + 1] steps.  Only then
    does the playback start: the first frame is shown (index 0) and the
    animation is running, or, if there is no frame, it is over at once. *)
Theorem start_search_runs_search_then_shows_first_frame
    fuel k doc gv source goal goals gen genk agentk agent' nsk ns' :
  size (nodes gv) ≠ 0 →
  source_node gv = Some source →
  goal_nodes gv = goal :: goals →
  select_generator SA doc = Ok (Some gen) →
  after_yields SA k gen
    (new SA (nodes (clear_path gv)) source goal)
    (nodes (clear_path gv)) = Some (genk, agentk, nsk) →
  resume SA genk agentk nsk = StopIteration agent' ns' →
  k < fuel →
  animation_speed gv ≠ 0%Z →
  ∃ gv',
    start_search fuel doc gv = Some (Ok tt, gv')
    ∧ search_generator gv' = Exhausted
    ∧ search_agent gv' = Some agent'
    ∧ length (animation_states gv') = k
    ∧ (∀ i, i < k → ∃ gi ai ni,
        after_yields SA (S i) gen
          (new SA (nodes (clear_path gv)) source goal)
          (nodes (clear_path gv)) = Some (gi, ai, ni)
        ∧ animation_states gv' !! i = Some (snapshot_of ai ni))
    ∧ current_state_index gv' = (if k =? 0 then (-1)%Z else 0%Z)
    ∧ is_animating gv' = negb (k =? 0)
    ∧ is_paused gv' = false.
Proof.
  intros Hsize Hsource Hgoal Hsel Hk Hstop Hfuel Hspeed.
  assert (Hn : nodes (clear_path (stop_search gv)) = nodes (clear_path gv)).
  { unfold clear_path, stop_search. gv_proj.
    by destruct (animation_timer gv). }
  assert (Hsp : animation_speed (clear_path (stop_search gv))
                = animation_speed gv).
  { unfold clear_path, stop_search. gv_proj.
    by destruct (animation_timer gv). }
  unfold start_search.
  destruct (Nat.eqb_spec (size (nodes gv)) 0) as [|_]; [done|].
  rewrite Hsource, Hgoal, Hsel.
  set (gv0 := clear_path (stop_search gv)) in *.
  set (agent := new SA (nodes gv0) source goal) in *.
  cbn [search_generator search_agent set_search set_animation is_animating
       is_paused].
  set (gv1 := set_animation [] (-1) _ _ _).
  destruct (collect_spec fuel k gen gv1 agent genk agentk nsk)
    as (r & gv2 & new_states & Hc & Hs & Hl & Hg & Hi & He);
    [done|subst agent gv1; gv_proj; by rewrite Hn| |done|].
  { intros g' a' n'. by rewrite Hstop. }
  rewrite Hstop in He. destruct He as (-> & Ha & Hnodes). rewrite Hc.
  set (gv3 := emit _ (set_animation _ (-1) true false gv2)).
  change (animation_states gv1) with (@nil (list (string * value number))) in Hs.
  simpl in Hs.
  assert (Hfr : ∀ i, i < k → ∃ gi ai ni,
    after_yields SA (S i) gen
      (new SA (nodes (clear_path gv)) source goal)
      (nodes (clear_path gv)) = Some (gi, ai, ni)
    ∧ animation_states gv2 !! i = Some (snapshot_of ai ni)).
  { intros i Hlt. destruct (Hi i Hlt) as (gi & ai & ni & Hy & Hlook).
    exists gi, ai, ni. subst agent gv1. gv_proj. rewrite Hn in Hy.
    by rewrite Hs. }
  assert (Hall : Forall captured (animation_states gv2)).
  { apply Forall_lookup. intros i s Hlook.
    destruct (Hfr i) as (gi & ai & ni & _ & Hlook').
    { apply lookup_lt_Some in Hlook. rewrite Hs in Hlook. lia. }
    rewrite Hlook in Hlook'. injection Hlook' as ->. by exists ai, ni. }
  assert (Hlen : length (animation_states gv2) = k) by by rewrite Hs.
  destruct k as [|k].
  - destruct (tick_end gv3) as (Hend & Ha3 & Hp3 & Hi3 & Hst3 & _ & Hag3 & Hg3);
      [done|done|subst gv3; gv_proj; lia|].
    rewrite Hend. eexists. split; [done|].
    rewrite Ha3, Hp3, Hi3, Hst3, Hag3, Hg3. subst gv3. gv_proj.
    split_and!; try done; intros i Hlt; lia.
  - destruct (tick_step gv3) as (ag & ns & gv4 & _ & Hstep & Hi4 & Ha4 & Hp4
      & _ & Hst4 & Hag4 & Hg4 & _);
      [done|done| |done|subst gv3; gv_proj; lia|].
    { subst gv3. gv_proj.
      assert (Hkeep : ∀ fuel gen' (gvx gvy : t number SA) rx,
        collect fuel gen' gvx = Some (rx, gvy) →
        animation_speed gvy = animation_speed gvx).
      { clear. induction fuel as [|fuel IH]; intros gen' gvx gvy rx; [done|].
        simpl. destruct (search_agent gvx) as [a|]; [|by intros [= _ <-]].
        destruct (resume SA gen' a (nodes gvx)) as [g1 a1 n1|a1 n1|e a1 n1].
        - gv_proj. unfold capture_search_state. gv_proj.
          intros Hc. by apply IH in Hc.
        - by intros [= _ <-].
        - by intros [= _ <-]. }
      rewrite (Hkeep _ _ _ _ _ Hc). subst gv1. gv_proj. by rewrite Hsp. }
    rewrite Hstep. exists gv4. split; [done|].
    rewrite Hi4, Ha4, Hp4, Hst4, Hag4, Hg4. subst gv3. gv_proj.
    split_and!; done.
Qed.

End gv_more.

Section gv_more_examples.
Import GraphVisualizer Fixtures.

Lemma capture_then_restore_witness :
  ∃ state gv3,
    capture_search_state line_started = Ok state
    ∧ restore_search_state state line_recorded = (Ok tt, gv3)
    ∧ (∀ name, nodes gv3 !! name =
         match nodes line_recorded !! name with
         | None => None
         | Some old => Some (default old (nodes line_started !! name))
         end)
    ∧ ((∀ name, is_Some (nodes line_recorded !! name)
                ↔ is_Some (nodes line_started !! name)) →
       nodes gv3 = nodes line_started)
    ∧ animation_states gv3 = animation_states line_recorded
    ∧ current_state_index gv3 = current_state_index line_recorded
    ∧ search_agent gv3 = search_agent line_recorded.
Proof.
  apply (capture_then_restore line_started line_recorded (line_agent 0 2)).
  reflexivity.
Defined.

Lemma line_recorded_captured : Forall captured (animation_states line_recorded).
Proof.
  apply Forall_lookup. intros i s.
  destruct i as [|[|[|i]]]; intros [= <-];
    eexists {| fringe_list := _; visited_list := _; traversal_array := _;
               path_found := _; current_node_info := _; success := false;
               path_cost := 0%Z; nodes_explored := 0 |}, _; reflexivity.
Qed.

Lemma timer_plays_each_frame_then_stops_witness :
  let last := (Z.of_nat (length (animation_states line_recorded)) - 1)%Z in
  let left := Z.to_nat (last - current_state_index line_recorded) in
  (∀ j, j ≤ left → ∃ gv',
     ticks j line_recorded = (Ok tt, gv')
     ∧ current_state_index gv' =
         (current_state_index line_recorded + Z.of_nat j)%Z
     ∧ is_animating gv' = true
     ∧ animation_states gv' = animation_states line_recorded
     ∧ (0 < j → ∃ agent ns,
          animation_states line_recorded
            !! Z.to_nat (current_state_index line_recorded + Z.of_nat j)
            = Some (snapshot_of agent ns)
          ∧ ∀ name st, ns !! name = Some st →
              is_Some (nodes line_recorded !! name) →
              nodes gv' !! name = Some st))
  ∧ ∃ gv_end,
      (∀ n, ticks (S left + n) line_recorded = (Ok tt, gv_end))
      ∧ is_animating gv_end = false
      ∧ current_state_index gv_end = last
      ∧ animation_states gv_end = animation_states line_recorded.
Proof.
  apply (timer_plays_each_frame_then_stops line_recorded).
  - reflexivity.
  - reflexivity.
  - vm_compute. discriminate.
  - apply line_recorded_captured.
  - vm_compute. split; [discriminate|reflexivity].
Defined.

Lemma stepping_stays_within_recording_witness :
  let last := (Z.of_nat (length (animation_states line_recorded)) - 1)%Z in
  ∃ gf gb,
    step_forward line_recorded = (Ok tt, gf)
    ∧ step_backward line_recorded = (Ok tt, gb)
    ∧ current_state_index gf =
        (if (current_state_index line_recorded <? last)%Z
         then current_state_index line_recorded + 1
         else current_state_index line_recorded)%Z
    ∧ current_state_index gb =
        (if (0 <? current_state_index line_recorded)%Z
         then current_state_index line_recorded - 1
         else current_state_index line_recorded)%Z
    ∧ index_ok gf ∧ index_ok gb
    ∧ animation_states gf = animation_states line_recorded
    ∧ animation_states gb = animation_states line_recorded
    ∧ ((last ≤ current_state_index line_recorded)%Z → gf = line_recorded)
    ∧ ((current_state_index line_recorded ≤ 0)%Z → gb = line_recorded)
    ∧ ((0 ≤ current_state_index line_recorded < last)%Z →
       ∃ gfb, step_backward gf = (Ok tt, gfb)
              ∧ current_state_index gfb = current_state_index line_recorded).
Proof.
  apply (stepping_stays_within_recording line_recorded).
  - apply line_recorded_captured.
  - vm_compute. split; [discriminate|reflexivity].
Defined.

Lemma depth_limit_not_a_number_raises_witness :
  ∃ gv',
    start_search 10 dls_no_depth line_graph = Some (Raise ValueError, gv')
    ∧ search_agent gv' =
        Some (new (line_walk 2) (nodes (clear_path line_graph)) 0 2)
    ∧ search_generator gv' = search_generator line_graph
    ∧ animation_states gv' = animation_states line_graph
    ∧ current_state_index gv' = current_state_index line_graph
    ∧ is_animating gv' = false
    ∧ nodes gv' = nodes (clear_path line_graph).
Proof.
  apply (depth_limit_not_a_number_raises line_graph 10 dls_no_depth 0 2 []).
  - vm_compute. discriminate.
  - reflexivity.
  - reflexivity.
  - left. reflexivity.
  - reflexivity.
Defined.

Lemma unknown_algorithm_uses_stored_generator_witness :
  match search_generator line_finished with
  | NoGenerator =>
      ∃ gv', start_search 10 unknown_selected line_finished
               = Some (Raise TypeError, gv')
             ∧ animation_states gv' = [] ∧ is_animating gv' = false
  | Exhausted =>
      ∃ gv', start_search 10 unknown_selected line_finished
               = Some (Ok tt, gv')
             ∧ animation_states gv' = [] ∧ is_animating gv' = false
             ∧ current_state_index gv' = (-1)%Z
             ∧ search_agent gv' =
                 Some (new (line_walk 2) (nodes (clear_path line_finished))
                         0 2)
  | Generator _ => True
  end.
Proof.
  apply (unknown_algorithm_uses_stored_generator line_finished 10
           unknown_selected 0 2 []).
  - vm_compute. discriminate.
  - reflexivity.
  - reflexivity.
  - intros H. repeat (apply elem_of_cons in H as [H|H]; [discriminate H|]).
    by apply elem_of_nil in H.
Defined.

Lemma start_search_runs_search_then_shows_first_frame_witness :
  ∃ gv',
    start_search 10 bfs_selected line_graph = Some (Ok tt, gv')
    ∧ search_generator gv' = Exhausted
    ∧ search_agent gv' =
        Some {| fringe_list := []; visited_list := [0; 1; 2];
                traversal_array := [0; 1; 2]; path_found := [0; 1; 2];
                current_node_info := {| g := 2%Z; h := 0%Z; f := 2%Z |};
                success := true; path_cost := 2%Z; nodes_explored := 3 |}
    ∧ length (animation_states gv') = 3
    ∧ (∀ i, i < 3 → ∃ gi ai ni,
        after_yields (line_walk 2) (S i) (breadth_first_search Z (line_walk 2))
          (new (line_walk 2) (nodes (clear_path line_graph)) 0 2)
          (nodes (clear_path line_graph)) = Some (gi, ai, ni)
        ∧ animation_states gv' !! i = Some (snapshot_of ai ni))
    ∧ current_state_index gv' = (if 3 =? 0 then (-1)%Z else 0%Z)
    ∧ is_animating gv' = negb (3 =? 0)
    ∧ is_paused gv' = false.
Proof.
  eapply (start_search_runs_search_then_shows_first_frame 10 3 bfs_selected
            line_graph 0 2 [] (breadth_first_search Z (line_walk 2)) 3).
  - vm_compute. discriminate.
  - reflexivity.
  - reflexivity.
  - reflexivity.
  - reflexivity.
  - reflexivity.
  - lia.
  - vm_compute. discriminate.
Defined.

Lemma pause_holds_playback_until_resumed_witness :
  ∃ gv1,
    toggle_pause line_recorded = (ResumeLabel, (Ok tt, gv1))
    ∧ is_paused gv1 = true
    ∧ (∀ n, ticks n gv1 = (Ok tt, gv1))
    ∧ current_state_index gv1 = current_state_index line_recorded
    ∧ animation_states gv1 = animation_states line_recorded
    ∧ nodes gv1 = nodes line_recorded
    ∧ is_animating gv1 = is_animating line_recorded
    ∧ (toggle_pause gv1).1 = PauseLabel
    ∧ is_paused (toggle_pause gv1).2.2 = false
    ∧ (is_animating line_recorded = false →
       animation_timer line_recorded = false →
       (toggle_pause gv1).2 = (Ok tt, line_recorded)).
Proof.
  apply (pause_holds_playback_until_resumed line_recorded). reflexivity.
Defined.

End gv_more_examples.

(** ** Undo and redo *)

Section History_facts.
Import History.
Context {Graph Saved : Type} (dumps : Graph → Saved)
  (restore_state : Saved → Graph → result unit * Graph).
Implicit Types (h : t Graph Saved) (g : Graph) (s : Saved).

Lemma nonempty_snoc (l : list Saved) :
  0 < length l → ∃ front s, l = front ++ [s].
Proof.
  destruct l as [|x l _] using rev_ind; [simpl; lia|]. intros _. by exists l, x.
Qed.

(** [undo] and [redo] on stacks whose top is known. *)
Lemma undo_snoc g front s redo_ :
  undo dumps restore_state
    {| graph := g; undo_stack := front ++ [s]; redo_stack := redo_ |} =
  ((restore_state s g).1,
   {| graph := (restore_state s g).2; undo_stack := front;
      redo_stack := redo_ ++ [dumps g] |}).
Proof.
  unfold undo. cbn [graph undo_stack redo_stack].
  rewrite length_app, Nat.add_comm. simpl.
  rewrite last_snoc, removelast_last. by destruct (restore_state s g).
Qed.

Lemma redo_snoc g undo_ front s :
  redo dumps restore_state
    {| graph := g; undo_stack := undo_; redo_stack := front ++ [s] |} =
  ((restore_state s g).1,
   {| graph := (restore_state s g).2; undo_stack := undo_ ++ [dumps g];
      redo_stack := front |}).
Proof.
  unfold redo. cbn [graph undo_stack redo_stack].
  rewrite length_app, Nat.add_comm. simpl.
  rewrite last_snoc, removelast_last. by destruct (restore_state s g).
Qed.

Lemma undo_nil g redo_ :
  undo dumps restore_state
    {| graph := g; undo_stack := []; redo_stack := redo_ |} =
  (Ok tt, {| graph := g; undo_stack := []; redo_stack := redo_ |}).
Proof. done. Qed.

Lemma undos_on_empty_stack k g redo_ :
  graph (fold_left (λ acc a, act dumps restore_state a acc)
           (replicate k Undo)
           {| graph := g; undo_stack := []; redo_stack := redo_ |}) = g.
Proof. induction k as [|k IH]; [done|]. simpl. apply IH. Qed.

Lemma act_bound a h :
  length (undo_stack h) + length (redo_stack h) ≤ 50 →
  length (undo_stack (act dumps restore_state a h))
    + length (redo_stack (act dumps restore_state a h)) ≤ 50.
Proof.
  intros Hb. destruct h as [g u r]. cbn [undo_stack redo_stack] in Hb.
  destruct a as [change| |]; cbn [act].
  - unfold save_state. cbn [graph undo_stack redo_stack].
    destruct (Nat.ltb_spec 50 (length (u ++ [dumps (change g)]))) as [Hlt|Hge].
    + destruct u as [|s u]; simpl in *; rewrite ?length_app in *;
        simpl in *; lia.
    + simpl. lia.
  - destruct (decide (0 < length u)) as [Hu|Hu].
    + destruct (nonempty_snoc u Hu) as (front & s & ->).
      rewrite undo_snoc. cbn [snd undo_stack redo_stack].
      rewrite !length_app in *. simpl in *. lia.
    + destruct u; [|simpl in Hu; lia]. rewrite undo_nil. simpl in *. lia.
  - destruct (decide (0 < length r)) as [Hr|Hr].
    + destruct (nonempty_snoc r Hr) as (front & s & ->).
      rewrite redo_snoc. cbn [snd undo_stack redo_stack].
      rewrite !length_app in *. simpl in *. lia.
    + destruct r; [|simpl in Hr; lia]. simpl in *. lia.
Qed.

(** X22.  Whatever the user does from a fresh visualizer, edits, undos and
    redos in any order, at most 50 states are kept: the undo stack and the
    redo stack never hold more than 50 between them.  (Only [save_state]
    checks the limit; [redo] appends to the undo stack without a check,
    but each state it moves comes from the undo stack in the first
    place.) *)
Theorem history_holds_at_most_50_states (actions : list (action Graph)) g :
  length (undo_stack (run dumps restore_state actions (__init__ g)))
  + length (redo_stack (run dumps restore_state actions (__init__ g))) ≤ 50.
Proof.
  unfold run.
  assert (Hgen : ∀ h, length (undo_stack h) + length (redo_stack h) ≤ 50 →
    length (undo_stack (fold_left (λ acc a, act dumps restore_state a acc) actions h))
    + length (redo_stack (fold_left (λ acc a, act dumps restore_state a acc) actions h))
      ≤ 50).
  { induction actions as [|a actions IH]; intros h Hb; [done|].
    simpl. apply IH. by apply act_bound. }
  apply Hgen. simpl. lia.
Qed.

(** X23.  Every edit saves the graph as it is AFTER the change, so the
    first undo after an edit loads the very graph that is on the screen:
    it returns normally, the graph stays the edited one, and the saved
    text moves to the redo stack.  From a fresh visualizer no number of
    undos brings back the graph from before the first edit. *)
Theorem undo_after_edit_reloads_edited_graph h (change : Graph → Graph) g k :
  (∀ g1 g2, restore_state (dumps g1) g2 = (Ok tt, g1)) →
  (undo dumps restore_state (act dumps restore_state (Edit change) h)).1 = Ok tt
  ∧ graph (act dumps restore_state Undo (act dumps restore_state (Edit change) h))
      = change (graph h)
  ∧ redo_stack (act dumps restore_state Undo
                  (act dumps restore_state (Edit change) h))
      = [dumps (change (graph h))]
  ∧ (length (undo_stack h) < 50 →
     undo_stack (act dumps restore_state Undo
                   (act dumps restore_state (Edit change) h)) = undo_stack h)
  ∧ graph (run dumps restore_state (Edit change :: replicate k Undo)
             (__init__ g)) = change g.
Proof.
  intros Hround. destruct h as [g0 u r].
  assert (Hedit : ∃ front,
    act dumps restore_state (Edit change)
      {| graph := g0; undo_stack := u; redo_stack := r |} =
    {| graph := change g0; undo_stack := front ++ [dumps (change g0)];
       redo_stack := [] |}
    ∧ (length u < 50 → front = u)).
  { cbn [act]. unfold save_state. cbn [graph undo_stack redo_stack].
    destruct (Nat.ltb_spec 50 (length (u ++ [dumps (change g0)]))) as [Hlt|Hge].
    - rewrite length_app in Hlt. simpl in Hlt.
      destruct u as [|s u]; [simpl in Hlt; lia|]. exists u. split; [done|].
      intros Hl. simpl in *. lia.
    - by exists u. }
  destruct Hedit as (front & -> & Hfront). cbn [act graph].
  rewrite undo_snoc, Hround. cbn [fst snd graph undo_stack redo_stack].
  split_and!; try done.
  assert (Hfresh : act dumps restore_state (Edit change) (__init__ g) =
    {| graph := change g; undo_stack := [] ++ [dumps (change g)];
       redo_stack := [] |}) by done.
  unfold run. cbn [fold_left]. rewrite Hfresh.
  destruct k as [|k]; [done|]. cbn [replicate fold_left act].
  rewrite undo_snoc, Hround. cbn [snd].
  apply (undos_on_empty_stack k).
Qed.

(** X24.  When the top of the undo stack is the saved text of a graph
    [g0], [undo] shows [g0], and [redo] right after it brings back the
    graph and both stacks exactly as they were; likewise [undo] right
    after a [redo]. *)
Theorem undo_then_redo_is_identity g g0 (front others : list Saved) :
  (∀ g1 g2, restore_state (dumps g1) g2 = (Ok tt, g1)) →
  let hu := {| graph := g; undo_stack := front ++ [dumps g0];
               redo_stack := others |} in
  let hr := {| graph := g; undo_stack := others;
               redo_stack := front ++ [dumps g0] |} in
  (∃ h1, undo dumps restore_state hu = (Ok tt, h1)
         ∧ graph h1 = g0 ∧ undo_stack h1 = front
         ∧ redo dumps restore_state h1 = (Ok tt, hu))
  ∧ (∃ h1, redo dumps restore_state hr = (Ok tt, h1)
           ∧ graph h1 = g0 ∧ redo_stack h1 = front
           ∧ undo dumps restore_state h1 = (Ok tt, hr)).
Proof.
  intros Hround hu hr. subst hu hr. split.
  - rewrite undo_snoc, Hround. eexists. split_and!; try done.
    cbn [fst snd]. by rewrite redo_snoc, Hround.
  - rewrite redo_snoc, Hround. eexists. split_and!; try done.
    cbn [fst snd]. by rewrite undo_snoc, Hround.
Qed.

End History_facts.

Section History_examples.
Import History.

Lemma undo_after_edit_reloads_edited_graph_witness :
  (undo (λ g : nat, g) (λ s _, (Ok tt, s))
     (act (λ g : nat, g) (λ s _, (Ok tt, s)) (Edit S) (__init__ 0))).1 = Ok tt
  ∧ graph (act (λ g : nat, g) (λ s _, (Ok tt, s)) Undo
             (act (λ g : nat, g) (λ s _, (Ok tt, s)) (Edit S) (__init__ 0)))
      = S (graph (__init__ (Saved := nat) 0))
  ∧ redo_stack (act (λ g : nat, g) (λ s _, (Ok tt, s)) Undo
                  (act (λ g : nat, g) (λ s _, (Ok tt, s)) (Edit S) (__init__ 0)))
      = [S (graph (__init__ (Saved := nat) 0))]
  ∧ (length (undo_stack (__init__ (Saved := nat) 0)) < 50 →
     undo_stack (act (λ g : nat, g) (λ s _, (Ok tt, s)) Undo
                   (act (λ g : nat, g) (λ s _, (Ok tt, s)) (Edit S) (__init__ 0)))
       = undo_stack (__init__ 0))
  ∧ graph (run (λ g : nat, g) (λ s _, (Ok tt, s)) (Edit S :: replicate 3 Undo)
             (__init__ 0)) = 1.
Proof.
  apply (undo_after_edit_reloads_edited_graph (λ g : nat, g)
           (λ s _, (Ok tt, s)) (__init__ 0) S 0 3).
  intros g1 g2. reflexivity.
Defined.

Lemma undo_then_redo_is_identity_witness :
  let hu := {| graph := 2; undo_stack := [0] ++ [1]; redo_stack := [5] |} in
  let hr := {| graph := 2; undo_stack := [5]; redo_stack := [0] ++ [1] |} in
  (∃ h1, undo (λ g : nat, g) (λ s _, (Ok tt, s)) hu = (Ok tt, h1)
         ∧ graph h1 = 1 ∧ undo_stack h1 = [0]
         ∧ redo (λ g : nat, g) (λ s _, (Ok tt, s)) h1 = (Ok tt, hu))
  ∧ (∃ h1, redo (λ g : nat, g) (λ s _, (Ok tt, s)) hr = (Ok tt, h1)
           ∧ graph h1 = 1 ∧ redo_stack h1 = [0]
           ∧ undo (λ g : nat, g) (λ s _, (Ok tt, s)) h1 = (Ok tt, hr)).
Proof.
  apply (undo_then_redo_is_identity (λ g : nat, g) (λ s _, (Ok tt, s))
           2 1 [0] [5]).
  intros g1 g2. reflexivity.
Defined.

End History_examples.
